(** * Page replacement simulator (new.py): FIFO, LRU and Optimal

    A shallow embedding of [fifo_page_replacement], [lru_page_replacement],
    [optimal_page_replacement], [validate_input] and the dispatch of
    [on_submit], followed by the properties of the three policies.

    Conventions of the embedding:
    - a Python list is a [list]; [l.append(x)] is [l ++ [x]], and
      [l.copy()] is the list itself (values are immutable here, so a copy
      is the value at the time of the copy);
    - the dict [page_indices] is a [gmap Page nat];
    - a Python [int] is a [Z] where it may be negative ([frames],
      [farthest_index]) and a [nat] where it is a counter or an index;
    - a run either returns or raises: [result A] is [Ok a] or [Raise e];
    - [time.time()] reads a clock the program does not control: the k-th
      reading of a call is [clock k], over an abstract type [Time]. *)

From stdpp Require Import gmap strings list sorting.
From Stdlib Require Import ZArith Lia.

Local Open Scope nat_scope.

(** ** Exceptions and the result monad *)

Inductive exn : Type :=
  | IndexError          (* pop from empty list *)
  | ValueError          (* list.remove / list.index / min on a bad argument *)
  | KeyError            (* dict lookup of a missing key *)
  | UnboundLocalError   (* local variable read before assignment *)
  | OverflowError       (* a repeat count that does not fit an index *)
  | MemoryError.        (* a list for which there is no memory *)

Inductive result (A : Type) : Type :=
  | Ok (a : A)
  | Raise (e : exn).
Arguments Ok {A} a.
Arguments Raise {A} e.

#[global] Instance result_ret : MRet result := @Ok.
#[global] Instance result_bind : MBind result :=
  λ A B f r, match r with Ok a => f a | Raise e => Raise e end.

#[global] Instance exn_eq_dec : EqDecision exn.
Proof. solve_decision. Defined.

(** ** Python list and dict primitives *)

Section primitives.
Context {A : Type} `{EqDecision A}.

(** [l.pop(0)]: the list without its first element. *)
Definition pop0 (l : list A) : result (list A) :=
  match l with
  | [] => Raise IndexError
  | _ :: l' => Ok l'
  end.

(** [l.remove(x)]: drops the first element equal to [x]. *)
Fixpoint list_remove (x : A) (l : list A) : result (list A) :=
  match l with
  | [] => Raise ValueError
  | y :: l' =>
      if decide (y = x) then Ok l'
      else l'' ← list_remove x l'; Ok (y :: l'')
  end.

(** [l.index(x)]: position of the first element equal to [x]. *)
Fixpoint list_index (x : A) (l : list A) : result nat :=
  match l with
  | [] => Raise ValueError
  | y :: l' =>
      if decide (y = x) then Ok 0
      else n ← list_index x l'; Ok (S n)
  end.

(** [min(l, key=k)]: the first element whose key is smallest. *)
Fixpoint min_from (k : A → result nat) (best : A) (kbest : nat)
    (l : list A) : result A :=
  match l with
  | [] => Ok best
  | x :: l' =>
      kx ← k x;
      if decide (kx < kbest) then min_from k x kx l'
      else min_from k best kbest l'
  end.

Definition py_min (k : A → result nat) (l : list A) : result A :=
  match l with
  | [] => Raise ValueError
  | x :: l' => kx ← k x; min_from k x kx l'
  end.

(** [for x in xs: body], threading the loop state. *)
Fixpoint for_each {St X : Type} (body : X → St → result St) (xs : list X)
    (s : St) : result St :=
  match xs with
  | [] => Ok s
  | x :: xs' => s' ← body x s; for_each body xs' s'
  end.

Fixpoint enumerate_from (n : nat) (l : list A) : list (nat * A) :=
  match l with
  | [] => []
  | x :: l' => (n, x) :: enumerate_from (S n) l'
  end.

(** [enumerate(l)] *)
Definition enumerate (l : list A) : list (nat * A) := enumerate_from 0 l.
End primitives.

(** [d[k]] *)
Definition dict_get `{Countable K} {V : Type} (d : gmap K V) (k : K)
    : result V :=
  match d !! k with
  | Some v => Ok v
  | None => Raise KeyError
  end.

(** ** The three policies *)

Section policies.
Context {Page : Type} `{Countable Page}.
Context {Time : Type} (time_sub : Time → Time → Time).

(** The locals shared by the three loops. *)
Record sim_state : Type := SimState {
  physical_memory : list Page;
  page_faults : nat;
  movements : list (list Page);
  iterations : nat
}.

Definition init_state : sim_state := SimState [] 0 [] 0.

(** What each function returns:
    [(page_faults, physical_memory, movements, run_time, iterations)]. *)
Definition report : Type :=
  nat * list Page * list (list Page) * Time * nat.

Definition report_faults (r : report) : nat := r.1.1.1.1.

Definition make_report (start_time end_time : Time) (st : sim_state)
    : report :=
  (page_faults st, physical_memory st, movements st,
   time_sub end_time start_time, iterations st).

(** *** FIFO *)

Definition fifo_step (frames : Z) (page : Page) (st : sim_state)
    : result sim_state :=
  let iterations := iterations st + 1 in
  '(physical_memory, page_faults) ←
    (if decide (page ∉ physical_memory st) then
       physical_memory ←
         (if decide (Z.of_nat (length (physical_memory st)) < frames)%Z
          then Ok (physical_memory st ++ [page])
          else m ← pop0 (physical_memory st); Ok (m ++ [page]));
       Ok (physical_memory, page_faults st + 1)
     else Ok (physical_memory st, page_faults st));
  Ok (SimState physical_memory page_faults
        (movements st ++ [physical_memory]) iterations).

Definition fifo_page_replacement (clock : nat → Time) (pages : list Page)
    (frames : Z) : result report :=
  let start_time := clock 0 in
  st ← for_each (fifo_step frames) pages init_state;
  let end_time := clock 1 in
  Ok (make_report start_time end_time st).

(** *** LRU *)

Definition lru_step (frames : Z) (ip : nat * Page)
    (s : sim_state * gmap Page nat) : result (sim_state * gmap Page nat) :=
  let '(i, page) := ip in
  let '(st, page_indices) := s in
  let iterations := iterations st + 1 in
  '(physical_memory, page_faults) ←
    (if decide (page ∉ physical_memory st) then
       physical_memory ←
         (if decide (Z.of_nat (length (physical_memory st)) < frames)%Z
          then Ok (physical_memory st ++ [page])
          else
            lru_page ← py_min (dict_get page_indices) (physical_memory st);
            m ← list_remove lru_page (physical_memory st);
            Ok (m ++ [page]));
       Ok (physical_memory, page_faults st + 1)
     else
       m ← list_remove page (physical_memory st);
       Ok (m ++ [page], page_faults st));
  let page_indices := <[page := i]> page_indices in
  Ok (SimState physical_memory page_faults
        (movements st ++ [physical_memory]) iterations, page_indices).

Definition lru_page_replacement (clock : nat → Time) (pages : list Page)
    (frames : Z) : result report :=
  let start_time := clock 0 in
  s ← for_each (lru_step frames) (enumerate pages) (init_state, ∅);
  let end_time := clock 1 in
  Ok (make_report start_time end_time s.1).

(** *** Optimal *)

(** The inner [for f in physical_memory] loop, with its [break]; [fs] is
    what is left of [physical_memory] to visit. *)
Fixpoint find_replacement (future_pages : list Page) (fs : list Page)
    (farthest_index : Z) (page_to_replace : option Page)
    : result (option Page) :=
  match fs with
  | [] => Ok page_to_replace
  | f :: fs' =>
      if decide (f ∉ future_pages) then Ok (Some f)
      else
        index ← list_index f future_pages;
        if decide (farthest_index < Z.of_nat index)%Z
        then find_replacement future_pages fs' (Z.of_nat index) (Some f)
        else find_replacement future_pages fs' farthest_index
               page_to_replace
  end.

(** [physical_memory.remove(page_to_replace)]: [None] is no page, so
    removing it finds nothing. *)
Definition remove_choice (page_to_replace : option Page) (l : list Page)
    : result (list Page) :=
  match page_to_replace with
  | Some q => list_remove q l
  | None => Raise ValueError
  end.

Definition optimal_step (pages : list Page) (frames : Z) (ip : nat * Page)
    (st : sim_state) : result sim_state :=
  let '(i, page) := ip in
  let iterations := iterations st + 1 in
  '(physical_memory, page_faults) ←
    (if decide (page ∉ physical_memory st) then
       physical_memory ←
         (if decide (Z.of_nat (length (physical_memory st)) < frames)%Z
          then Ok (physical_memory st ++ [page])
          else
            let future_pages := drop (i + 1) pages in
            page_to_replace ←
              find_replacement future_pages (physical_memory st) (-1) None;
            m ← remove_choice page_to_replace (physical_memory st);
            Ok (m ++ [page]));
       Ok (physical_memory, page_faults st + 1)
     else Ok (physical_memory st, page_faults st));
  Ok (SimState physical_memory page_faults
        (movements st ++ [physical_memory]) iterations).

Definition optimal_page_replacement (clock : nat → Time)
    (pages : list Page) (frames : Z) : result report :=
  let start_time := clock 0 in
  st ← for_each (optimal_step pages frames) (enumerate pages) init_state;
  let end_time := clock 1 in
  Ok (make_report start_time end_time st).

(** The locals of each loop after its first [n] iterations. *)
Definition fifo_locals_after (pages : list Page) (frames : Z) (n : nat)
    : result sim_state :=
  for_each (fifo_step frames) (take n pages) init_state.

Definition lru_locals_after (pages : list Page) (frames : Z) (n : nat)
    : result (sim_state * gmap Page nat) :=
  for_each (lru_step frames) (take n (enumerate pages)) (init_state, ∅).

Definition optimal_locals_after (pages : list Page) (frames : Z) (n : nat)
    : result sim_state :=
  for_each (optimal_step pages frames) (take n (enumerate pages))
    init_state.

(** The [if algorithm == ...: ... elif ...] chain of [on_submit]; with no
    branch taken, the [page_faults] read on the next line is unbound. *)
Definition run_algorithm (algorithm : string) (clock : nat → Time)
    (pages : list Page) (frames : Z) : result report :=
  if decide (algorithm = "FIFO") then
    fifo_page_replacement clock pages frames
  else if decide (algorithm = "LRU") then
    lru_page_replacement clock pages frames
  else if decide (algorithm = "Optimal") then
    optimal_page_replacement clock pages frames
  else Raise UnboundLocalError.

Definition locals_after (algorithm : string) (pages : list Page)
    (frames : Z) (n : nat) : result sim_state :=
  if decide (algorithm = "FIFO") then fifo_locals_after pages frames n
  else if decide (algorithm = "LRU") then
    s ← lru_locals_after pages frames n; Ok s.1
  else if decide (algorithm = "Optimal") then
    optimal_locals_after pages frames n
  else Raise UnboundLocalError.
End policies.

Arguments sim_state Page : clear implicits.
Arguments report Page Time : clear implicits.

(** ** The form: validation, submission, the rows of the result box *)

(** The texts of the two entries are Python strings, kept here as Rocq
    [string]s (their UTF-8 bytes, so that joining texts is joining
    strings). [str.isdigit], [int], [str.strip] and [str.split] are Python's
    own and not code of this program; what they do on arbitrary Unicode
    text is not modelled: they are parameters, [int] with the exception it
    raises on the texts it cannot read. *)

Section form_model.
Context {Time : Type} (time_sub : Time → Time → Time).
Context (str_isdigit : string → bool) (py_int : string → result Z).
Context (py_strip : string → string) (py_split : string → list string).

(** [validate_input]: the error dialogs shown and the value returned, or
    the exception raised by [int]. In [not frames.isdigit() or
    int(frames) <= 0] the call of [int] is reached only when [isdigit]
    holds. *)
Definition validate_input (pages : list string) (frames : string)
    : result (list string * bool) :=
  if decide (pages = []) then
    Ok (["Please enter a valid page string."], false)
  else if negb (str_isdigit frames) then
    Ok (["Please enter a valid number of frames."], false)
  else
    n ← py_int frames;
    if decide (n ≤ 0)%Z then
      Ok (["Please enter a valid number of frames."], false)
    else Ok ([], true).

(** [on_submit] from the texts of the two entries and the value of the
    algorithm menu, up to the call of the selected algorithm. It returns
    the dialogs shown and, when an algorithm ran, its report; [None] is
    the early [return] after a failed validation. *)
Definition on_submit (clock : nat → Time)
    (entry_pages entry_frames algorithm : string)
    : result (list string * option (report string Time)) :=
  let pages := py_split (py_strip entry_pages) in
  let frames := py_strip entry_frames in
  '(dialogs, valid) ← validate_input pages frames;
  if negb valid then Ok (dialogs, None)
  else
    frames ← py_int frames;
    r ← run_algorithm time_sub algorithm clock pages frames;
    Ok (dialogs, Some r).
End form_model.

(** [[x] * n]: no element when [n] is zero or negative. A count that does
    not fit an index (outside [-maxsize - 1 .. maxsize], with [maxsize] the
    platform's [sys.maxsize]) raises OverflowError. A count that fits an
    index is still refused, with MemoryError, when the interpreter has no
    memory for a list that long: [room] is the longest list it has memory
    for. The two bounds are parameters; the texts and lists built from a
    list that fits (its concatenation to the frame list, the joined text)
    are taken to fit as well. *)
Definition py_repeat {A : Type} (maxsize room : Z) (x : A) (n : Z)
    : result (list A) :=
  if decide (- maxsize - 1 ≤ n ≤ maxsize)%Z then
    if decide (n ≤ room)%Z then Ok (replicate (Z.to_nat n) x)
    else Raise MemoryError
  else Raise OverflowError.

(** [format_memory_state]: one bracketed cell per page, then empty cells up
    to [frames]. *)
Definition format_memory_state (maxsize room : Z) (memory : list string)
    (frames : Z) : result string :=
  padding ← py_repeat maxsize room "" (frames - Z.of_nat (length memory));
  let memory_str :=
    String.concat " "
      (map (λ page, "[" +:+ page +:+ "]") (memory ++ padding))
  in Ok memory_str.

(** The rows that [on_submit] writes under "Memory Movements:", one per
    snapshot, in the order of the snapshots. *)
Definition movement_rows (maxsize room : Z) (movements : list (list string))
    (frames : Z) : result (list string) :=
  for_each
    (λ state rows,
       row ← format_memory_state maxsize room state frames;
       Ok (rows ++ [row]))
    movements [].

(** *** The four built-ins on ASCII text, for running examples

    An instance of the four parameters above. It gives Python's answers on
    ASCII text only: [ascii_isdigit] and [ascii_int] on texts of the
    characters 0 to 9 ([int] refuses more than 4300 digits, and is called by
    [validate_input] and [on_submit] only where [isdigit] holds),
    [ascii_strip] and [ascii_split] on texts whose white space is ASCII
    (codes 9 to 13 and 28 to 32). No property of the program is stated
    about this instance. *)

Definition is_digit (c : Ascii.ascii) : bool :=
  (48 <=? Ascii.nat_of_ascii c) && (Ascii.nat_of_ascii c <=? 57).

Definition ascii_isdigit (s : string) : bool :=
  match s with
  | String.EmptyString => false
  | _ => forallb is_digit (String.list_ascii_of_string s)
  end.

Definition ascii_int (s : string) : result Z :=
  if ascii_isdigit s && (String.length s <=? 4300) then
    Ok (fold_left
          (λ acc c, 10 * acc + (Z.of_nat (Ascii.nat_of_ascii c) - 48))%Z
          (String.list_ascii_of_string s) 0%Z)
  else Raise ValueError.

Definition is_space (c : Ascii.ascii) : bool :=
  let n := Ascii.nat_of_ascii c in
  ((9 <=? n) && (n <=? 13)) || ((28 <=? n) && (n <=? 32)).

Fixpoint lstrip (s : string) : string :=
  match s with
  | String.EmptyString => String.EmptyString
  | String.String c s' => if is_space c then lstrip s' else s
  end.

Fixpoint rstrip (s : string) : string :=
  match s with
  | String.EmptyString => String.EmptyString
  | String.String c s' =>
      match rstrip s' with
      | String.EmptyString =>
          if is_space c then String.EmptyString
          else String.String c String.EmptyString
      | r => String.String c r
      end
  end.

Definition ascii_strip (s : string) : string := rstrip (lstrip s).

Fixpoint ascii_split_from (cur : string) (s : string) : list string :=
  match s with
  | String.EmptyString =>
      match cur with
      | String.EmptyString => []
      | _ => [cur]
      end
  | String.String c s' =>
      if is_space c then
        match cur with
        | String.EmptyString => ascii_split_from String.EmptyString s'
        | _ => cur :: ascii_split_from String.EmptyString s'
        end
      else ascii_split_from (cur +:+ String.String c String.EmptyString) s'
  end.

Definition ascii_split (s : string) : list string :=
  ascii_split_from String.EmptyString s.

(** ** The large random run *)

(** [show_large_input_results], for the fault counts it prints: the 10000
    draws of [random.randint(0, 100)] are the parameter [large_pages], and
    the three run times, which it also prints, are left out. *)
Definition show_large_input_results {Time : Type}
    (time_sub : Time → Time → Time) (clock : nat → Time)
    (large_pages : list Z) (frames : Z) : result (nat * nat * nat) :=
  fifo ← fifo_page_replacement time_sub clock large_pages frames;
  lru ← lru_page_replacement time_sub clock large_pages frames;
  optimal ← optimal_page_replacement time_sub clock large_pages frames;
  Ok (report_faults fifo, report_faults lru, report_faults optimal).

(** ** Vocabulary of the properties *)

Section vocabulary.
Context {Page : Type} `{Countable Page}.
Implicit Types (pages fut : list Page) (movs : list (list Page)).

(** The frame list against which step [i] is looked up: empty before the
    first step, the snapshot of step [i - 1] afterwards. *)
Definition frames_before movs (i : nat) : list Page :=
  match i with
  | 0 => []
  | S j => default [] (movs !! j)
  end.

(** For each step, whether its page is absent from the frame list just
    before the step. *)
Definition miss_flags pages movs : list bool :=
  imap (λ i p, bool_decide (p ∉ frames_before movs i)) pages.

Definition count_true (bs : list bool) : nat :=
  length (filter (λ b, b = true) bs).

(** A frame list is well formed for capacity [frames]. *)
Definition good (frames : Z) (m : list Page) : Prop :=
  NoDup m ∧ (Z.of_nat (length m) ≤ frames)%Z.

(** [j] is the last step before step [i] that referenced [p]. *)
Definition is_last_access pages (i : nat) (p : Page) (j : nat) : Prop :=
  j < i ∧ pages !! j = Some p ∧ ∀ j', j < j' < i → pages !! j' ≠ Some p.

(** [j] is the position of the first occurrence of [p] in [fut]. *)
Definition first_occurrence fut (p : Page) (j : nat) : Prop :=
  fut !! j = Some p ∧ ∀ j', j' < j → fut !! j' ≠ Some p.

(** Distance to the next use of [p] in [fut], the length of [fut] when
    there is none. *)
Fixpoint next_use (p : Page) fut : nat :=
  match fut with
  | [] => 0
  | x :: fut' => if decide (x = p) then 0 else S (next_use p fut')
  end.

(** The list is in strictly increasing order of the recorded index. *)
Definition recency_lt (idx : gmap Page nat) (x y : Page) : Prop :=
  ∃ jx jy, idx !! x = Some jx ∧ idx !! y = Some jy ∧ jx < jy.

Definition recency_sorted (idx : gmap Page nat) (m : list Page) : Prop :=
  StronglySorted (recency_lt idx) m ∧ ∀ x, x ∈ m → is_Some (idx !! x).

(** One step of each policy, as a relation between the page referenced,
    the frame list before and the frame list after. *)
Definition fifo_trans (frames : Z) (p : Page) (prev next : list Page)
    : Prop :=
  (p ∈ prev ∧ next = prev) ∨
  ((p ∉ prev) ∧ (Z.of_nat (length prev) < frames)%Z ∧ next = prev ++ [p]) ∨
  ((p ∉ prev) ∧ (frames ≤ Z.of_nat (length prev))%Z ∧
   next = tail prev ++ [p]).

Definition lru_trans pages (frames : Z) (i : nat) (p : Page)
    (prev next : list Page) : Prop :=
  (p ∈ prev ∧ ∃ l1 l2, prev = l1 ++ p :: l2 ∧ next = l1 ++ l2 ++ [p]) ∨
  ((p ∉ prev) ∧ (Z.of_nat (length prev) < frames)%Z ∧ next = prev ++ [p]) ∨
  ((p ∉ prev) ∧ (frames ≤ Z.of_nat (length prev))%Z ∧
   ∃ q rest jq, prev = q :: rest ∧ next = rest ++ [p] ∧
     is_last_access pages i q jq ∧
     ∀ r, r ∈ rest → ∃ jr, is_last_access pages i r jr ∧ jq < jr).

Definition optimal_trans pages (frames : Z) (i : nat) (p : Page)
    (prev next : list Page) : Prop :=
  (p ∈ prev ∧ next = prev) ∨
  ((p ∉ prev) ∧ (Z.of_nat (length prev) < frames)%Z ∧ next = prev ++ [p]) ∨
  ((p ∉ prev) ∧ (frames ≤ Z.of_nat (length prev))%Z ∧
   ∃ q l1 l2, prev = l1 ++ q :: l2 ∧ next = l1 ++ l2 ++ [p] ∧
     let fut := drop (S i) pages in
     ((∃ r, r ∈ prev ∧ (r ∉ fut)) → (q ∉ fut) ∧ ∀ r, r ∈ l1 → r ∈ fut) ∧
     ((∀ r, r ∈ prev → r ∈ fut) →
      ∀ r, r ∈ prev → next_use r fut ≤ next_use q fut)).

(** A step that loads a page only when it is referenced and absent, and
    leaves at most [frames] pages resident. *)
Definition lazy_step (frames : Z) (p : Page) (prev next : list Page)
    : Prop :=
  (p ∈ prev → list_to_set next =@{gset Page} list_to_set prev) ∧
  (p ∉ prev →
   list_to_set next ⊆@{gset Page} list_to_set prev ∪ {[p]} ∧ p ∈ next) ∧
  (Z.of_nat (size (list_to_set next : gset Page)) ≤ frames)%Z.

Definition policy_trans (algorithm : string) pages (frames : Z)
    : nat → Page → list Page → list Page → Prop :=
  if decide (algorithm = "FIFO") then λ _, fifo_trans frames
  else if decide (algorithm = "LRU") then lru_trans pages frames
  else optimal_trans pages frames.

(** The three entries of the algorithm menu. *)
Definition algorithms : list string := ["FIFO"; "LRU"; "Optimal"].

(** The state of a loop after [n] steps over [pages], every step being a
    [T]-step. *)
Definition run_inv (T : nat → Page → list Page → list Page → Prop)
    (frames : Z) pages (n : nat) (st : sim_state Page) : Prop :=
  length (movements st) = n ∧
  iterations st = n ∧
  physical_memory st = frames_before (movements st) n ∧
  page_faults st = count_true (miss_flags (take n pages) (movements st)) ∧
  (∀ i, i ≤ n → good frames (frames_before (movements st) i)) ∧
  (∀ i p, i < n → pages !! i = Some p →
     ∃ next, movements st !! i = Some next ∧
             T i p (frames_before (movements st) i) next).

(** The accumulators of [find_replacement] after the pages [seen], none
    of which made the loop break. *)
Definition acc_ok fut (seen : list Page) (farthest_index : Z)
    (page_to_replace : option Page) : Prop :=
  match page_to_replace with
  | None => farthest_index = (-1)%Z ∧ seen = []
  | Some c =>
      c ∈ seen ∧ farthest_index = Z.of_nat (next_use c fut) ∧
      ∀ r, r ∈ seen → next_use r fut ≤ next_use c fut
  end.

(** The index map records the last access of every page seen so far. *)
Definition records_last_access pages (n : nat) (idx : gmap Page nat)
    : Prop :=
  ∀ r j, idx !! r = Some j ↔ is_last_access pages n r j.

(** The state of the LRU loop after [n] steps. *)
Definition lru_inv pages (frames : Z) (n : nat)
    (s : sim_state Page * gmap Page nat) : Prop :=
  run_inv (lru_trans pages frames) frames pages n s.1 ∧
  records_last_access pages n s.2 ∧
  recency_sorted s.2 (physical_memory s.1).

(** Demand paging with at most [frames] resident pages: [sched frames C
    fut n] says some way of serving [fut] from the resident set [C],
    loading a page only when it is referenced and absent, takes [n]
    faults. *)
Inductive sched (frames : Z) : gset Page → list Page → nat → Prop :=
  | sched_nil C : sched frames C [] 0
  | sched_hit C p fut n :
      p ∈ C → sched frames C fut n → sched frames C (p :: fut) n
  | sched_miss C C' p fut n :
      p ∉ C → C' ⊆ C ∪ {[p]} → p ∈ C' →
      (Z.of_nat (size C') ≤ frames)%Z →
      sched frames C' fut n → sched frames C (p :: fut) (S n).
(** What a step may do to the frame list, whatever the policy: a hit keeps
    the same pages, a miss with a free frame appends the page, a miss
    without one takes exactly one page out and appends the new one. *)
Definition demand_step (frames : Z) (p : Page) (prev next : list Page)
    : Prop :=
  (p ∈ prev → next ≡ₚ prev) ∧
  (p ∉ prev → (Z.of_nat (length prev) < frames)%Z → next = prev ++ [p]) ∧
  (p ∉ prev → (frames ≤ Z.of_nat (length prev))%Z →
   ∃ q l1 l2, prev = l1 ++ q :: l2 ∧ next = l1 ++ l2 ++ [p]).

(** The pages referenced so far, each once, from the least to the most
    recently referenced. *)
Definition lru_stack pages : list Page :=
  fold_left (λ stack p, filter (λ x, x ≠ p) stack ++ [p]) pages [].

(** [q] was brought in by the miss of step [j] and has been resident ever
    since, up to the frame list that step [i] finds. *)
Definition loaded_at pages movs (i : nat) (q : Page) (j : nat) : Prop :=
  j < i ∧ pages !! j = Some q ∧ (q ∉ frames_before movs j) ∧
  ∀ j', j < j' ≤ i → q ∈ frames_before movs j'.
End vocabulary.

(** * Properties *)

(** ** The result monad and the primitives *)

Lemma bind_Ok {A B} (f : A → result B) (a : A) : (Ok a ≫= f) = f a.
Proof. reflexivity. Qed.

Lemma bind_Ok_inv {A B} (f : A → result B) (r : result A) (b : B) :
  (r ≫= f) = Ok b → ∃ a, r = Ok a ∧ f a = Ok b.
Proof. destruct r as [a|e]; [eauto | discriminate]. Qed.

Section primitives_facts.
Context {A : Type} `{EqDecision A}.
Implicit Types (l : list A) (x : A).

Lemma list_remove_split l1 x l2 :
  x ∉ l1 → list_remove x (l1 ++ x :: l2) = Ok (l1 ++ l2).
Proof.
  induction l1 as [|y l1 IH]; intros Hx; simpl.
  - by rewrite decide_True.
  - rewrite decide_False; [|set_solver]. rewrite IH; [done | set_solver].
Qed.

Lemma list_remove_elem_of l x :
  x ∈ l → ∃ l1 l2, l = l1 ++ x :: l2 ∧ (x ∉ l1) ∧
                   list_remove x l = Ok (l1 ++ l2).
Proof.
  intros Hx. destruct (list_elem_of_split_l l x Hx) as (l1 & l2 & -> & Hl1).
  exists l1, l2. split_and!; [done.. | by apply list_remove_split].
Qed.

Lemma list_index_next_use `{Countable A} x l :
  x ∈ l → list_index x l = Ok (next_use x l).
Proof.
  induction l as [|y l IH]; intros Hx; [by apply not_elem_of_nil in Hx|].
  simpl. destruct (decide (y = x)); [done|].
  rewrite IH; [done | set_solver].
Qed.

(** [min_from] keeps the first element of smallest key. *)
Lemma min_from_spec (g : A → nat) (k : A → result nat) l best seen :
  (∀ x, x ∈ l → k x = Ok (g x)) →
  best ∈ seen →
  (∀ r, r ∈ seen → g best ≤ g r) →
  ∃ q, min_from k best (g best) l = Ok q ∧ q ∈ seen ++ l ∧
       (∀ r, r ∈ seen ++ l → g q ≤ g r) ∧
       (q ∈ seen → q = best).
Proof.
  revert best seen. induction l as [|x l IH]; intros best seen Hk Hb Hmin.
  - exists best. rewrite app_nil_r. by split_and!.
  - simpl. rewrite Hk; [|set_solver]. rewrite bind_Ok.
    destruct (decide (g x < g best)) as [Hlt|Hge].
    + destruct (IH x (seen ++ [x])) as (q & Hq & Hin & Hle & Hfirst).
      * intros; apply Hk; set_solver.
      * set_solver.
      * intros r [Hr|Hr%list_elem_of_singleton]%elem_of_app; subst;
          [specialize (Hmin r Hr)|]; lia.
      * exists q. rewrite <-app_assoc in Hin, Hle. simpl in Hin, Hle.
        split_and!; [done.. |]. intros Hqs.
        specialize (Hmin q Hqs). specialize (Hle x). 
        assert (g q ≤ g x) by (apply Hle; set_solver). lia.
    + destruct (IH best (seen ++ [x])) as (q & Hq & Hin & Hle & Hfirst).
      * intros; apply Hk; set_solver.
      * set_solver.
      * intros r [Hr|Hr%list_elem_of_singleton]%elem_of_app; subst;
          [by apply Hmin | lia].
      * exists q. rewrite <-app_assoc in Hin, Hle. simpl in Hin, Hle.
        split_and!; [done.. |]. intros Hqs. apply Hfirst. set_solver.
Qed.

Lemma py_min_spec (g : A → nat) (k : A → result nat) x l :
  (∀ y, y ∈ x :: l → k y = Ok (g y)) →
  ∃ q, py_min k (x :: l) = Ok q ∧ q ∈ x :: l ∧
       (∀ r, r ∈ x :: l → g q ≤ g r).
Proof.
  intros Hk. simpl. rewrite Hk; [|set_solver]. rewrite bind_Ok.
  destruct (min_from_spec g k l x [x]) as (q & Hq & Hin & Hle & _).
  - intros; apply Hk; set_solver.
  - set_solver.
  - intros r ->%list_elem_of_singleton. done.
  - exists q. by split_and!.
Qed.

Lemma for_each_app {St X} (body : X → St → result St) xs ys (s : St) :
  for_each body (xs ++ ys) s = (for_each body xs s ≫= for_each body ys).
Proof.
  revert s. induction xs as [|x xs IH]; intros s; simpl; [done|].
  destruct (body x s); simpl; [apply IH | done].
Qed.

(** The loop rule: an invariant indexed by the number of steps taken. *)
Lemma for_each_invariant {St X} (body : X → St → result St)
    (P : nat → St → Prop) (xs : list X) (s : St) :
  P 0 s →
  (∀ n (y : X) s, xs !! n = Some y → P n s →
             ∃ s', body y s = Ok s' ∧ P (S n) s') →
  ∃ s', for_each body xs s = Ok s' ∧ P (length xs) s'.
Proof.
  revert P s. induction xs as [|y xs IH]; intros P s H0 Hstep; simpl.
  - eauto.
  - destruct (Hstep 0 y s eq_refl H0) as (s1 & -> & H1). rewrite bind_Ok.
    apply (IH (λ n, P (S n))); [done|].
    intros n z s2 Hz. by apply Hstep.
Qed.

Lemma enumerate_from_lookup n l i :
  enumerate_from n l !! i = (λ x, (n + i, x)) <$> l !! i.
Proof.
  revert n i. induction l as [|x l IH]; intros n [|i]; simpl; [done..| |].
  - by rewrite Nat.add_0_r.
  - rewrite IH. by replace (S n + i) with (n + S i) by lia.
Qed.

Lemma enumerate_lookup l i : enumerate l !! i = (λ x, (i, x)) <$> l !! i.
Proof. apply enumerate_from_lookup. Qed.

Lemma length_enumerate_from n l : length (enumerate_from n l) = length l.
Proof. revert n. induction l; intros; simpl; [done | by f_equal]. Qed.

Lemma for_each_take_S {St X} (body : X → St → result St) (xs : list X)
    (s : St) n (y : X) :
  xs !! n = Some y →
  for_each body (take (S n) xs) s =
  (for_each body (take n xs) s ≫= body y).
Proof.
  intros Hy. rewrite (take_S_r _ _ _ Hy), for_each_app. simpl.
  destruct (for_each body (take n xs) s) as [t|e]; simpl; [|done].
  by destruct (body y t).
Qed.

Lemma take_length_enumerate l : take (length l) (enumerate l) = enumerate l.
Proof.
  apply firstn_all2. unfold enumerate. by rewrite length_enumerate_from.
Qed.

Lemma for_each_enumerate_from {St} (body : A → St → result St) n l s :
  for_each (λ ip, body ip.2) (enumerate_from n l) s = for_each body l s.
Proof.
  revert n s. induction l as [|x l IH]; intros n s; simpl; [done|].
  destruct (body x s); simpl; [apply IH | done].
Qed.
End primitives_facts.

(** ** Snapshots, miss flags and the loop invariant *)

Section traces.
Context {Page : Type} `{Countable Page}.
Implicit Types (pages fut : list Page) (movs : list (list Page)).
Implicit Types (p q r : Page) (st : sim_state Page).

Lemma frames_before_app movs ext i :
  i ≤ length movs → frames_before (movs ++ ext) i = frames_before movs i.
Proof.
  destruct i as [|j]; [done|]. intros Hj. simpl.
  by rewrite lookup_app_l by lia.
Qed.

Lemma frames_before_snoc movs m :
  frames_before (movs ++ [m]) (S (length movs)) = m.
Proof. simpl. by rewrite list_lookup_middle. Qed.

Lemma frames_before_S movs i m :
  movs !! i = Some m → frames_before movs (S i) = m.
Proof. simpl. by intros ->. Qed.

Lemma count_true_app bs1 bs2 :
  count_true (bs1 ++ bs2) = count_true bs1 + count_true bs2.
Proof. unfold count_true. by rewrite filter_app, length_app. Qed.

Lemma count_true_cons b bs :
  count_true (b :: bs) = (if b then 1 else 0) + count_true bs.
Proof.
  unfold count_true. rewrite filter_cons.
  destruct b; by case_decide.
Qed.

Lemma length_miss_flags pages movs :
  length (miss_flags pages movs) = length pages.
Proof. apply length_imap. Qed.

Lemma miss_flags_lookup pages movs i :
  miss_flags pages movs !! i =
  (λ p, bool_decide (p ∉ frames_before movs i)) <$> pages !! i.
Proof. apply list_lookup_imap. Qed.

Lemma miss_flags_snoc pages movs n p next :
  length movs = n → pages !! n = Some p →
  miss_flags (take (S n) pages) (movs ++ [next]) =
  miss_flags (take n pages) movs ++
    [bool_decide (p ∉ frames_before movs n)].
Proof.
  intros Hlen Hp. rewrite (take_S_r _ _ _ Hp). unfold miss_flags.
  rewrite imap_app. simpl.
  assert (length (take n pages) = n) as Hn.
  { rewrite length_take. apply lookup_lt_Some in Hp. lia. }
  rewrite Hn, Nat.add_0_r, frames_before_app by lia. f_equal.
  apply list_eq. intros i. rewrite !list_lookup_imap.
  destruct (take n pages !! i) as [x|] eqn:Hx; [|done]. simpl.
  apply lookup_lt_Some in Hx. by rewrite frames_before_app by lia.
Qed.

Lemma frames_before_take movs n i :
  i ≤ n → frames_before (take n movs) i = frames_before movs i.
Proof.
  destruct i as [|j]; [done|]. intros Hj. simpl.
  by rewrite lookup_take_lt by lia.
Qed.

Lemma miss_flags_take pages movs n m :
  n ≤ m →
  miss_flags (take n pages) (take m movs) = take n (miss_flags pages movs).
Proof.
  intros Hnm. apply list_eq. intros i. rewrite miss_flags_lookup.
  destruct (decide (i < n)) as [Hi|Hi].
  - rewrite !lookup_take_lt, miss_flags_lookup by done.
    by rewrite frames_before_take by lia.
  - by rewrite !lookup_take_ge by lia.
Qed.

Lemma count_true_take_S (bs : list bool) (n : nat) (b : bool) :
  bs !! n = Some b →
  count_true (take (S n) bs) =
  count_true (take n bs) + (if b then 1 else 0).
Proof.
  intros Hb. rewrite (take_S_r _ _ _ Hb), count_true_app. f_equal.
  by destruct b.
Qed.

Lemma good_nil frames : (0 ≤ frames)%Z → good frames (@nil Page).
Proof. intros. split; [constructor | simpl; lia]. Qed.

(** Appending one snapshot extends the invariant by one step. *)
Lemma run_inv_step T frames pages n st p next :
  run_inv T frames pages n st →
  pages !! n = Some p →
  T n p (physical_memory st) next →
  good frames next →
  run_inv T frames pages (S n)
    (SimState next
       (page_faults st + (if decide (p ∉ physical_memory st) then 1 else 0))
       (movements st ++ [next]) (iterations st + 1)).
Proof.
  intros (Hlen & Hit & Hmem & Hpf & Hgood & Htr) Hp HT Hnext.
  unfold run_inv; cbn [physical_memory page_faults movements iterations].
  split_and!.
  - rewrite length_app; simpl; lia.
  - lia.
  - by rewrite <-Hlen, frames_before_snoc.
  - rewrite (miss_flags_snoc _ _ _ _ _ Hlen Hp), count_true_app, <-Hpf.
    rewrite count_true_cons, <-Hmem. unfold count_true; simpl.
    destruct (decide (p ∉ physical_memory st)).
    + rewrite bool_decide_eq_true_2 by done. lia.
    + rewrite bool_decide_eq_false_2 by done. lia.
  - intros i Hi. destruct (decide (i = S n)) as [->|Hne].
    + by rewrite <-Hlen, frames_before_snoc.
    + rewrite frames_before_app by lia. apply Hgood. lia.
  - intros i x Hi Hx. rewrite frames_before_app by lia.
    destruct (decide (i = n)) as [->|Hne].
    + exists next. rewrite <-Hlen at 1. rewrite list_lookup_middle by done.
      assert (x = p) as -> by congruence. by rewrite <-Hmem.
    + destruct (Htr i x) as (nx & Hnx & HTx); [lia | done |].
      exists nx. by rewrite lookup_app_l by lia.
Qed.

Lemma run_inv_init T frames pages :
  (0 ≤ frames)%Z → run_inv T frames pages 0 init_state.
Proof.
  intros Hf. unfold run_inv; simpl. split_and!; try done.
  - intros i Hi. assert (i = 0) as -> by lia. by apply good_nil.
  - intros; lia.
Qed.

(** What the invariant says once the loop is over. *)
Lemma run_inv_final T frames pages st :
  run_inv T frames pages (length pages) st →
  page_faults st = count_true (miss_flags pages (movements st)) ∧
  length (movements st) = length pages ∧
  iterations st = length pages ∧
  physical_memory st = frames_before (movements st) (length pages).
Proof.
  intros (Hlen & Hit & Hmem & Hpf & _ & _).
  by rewrite firstn_all in Hpf.
Qed.

Lemma run_inv_snapshot_good T frames pages n st i m :
  run_inv T frames pages n st → movements st !! i = Some m →
  good frames m.
Proof.
  intros (Hlen & _ & _ & _ & Hgood & _) Hm.
  rewrite <-(frames_before_S _ _ _ Hm). apply Hgood.
  apply lookup_lt_Some in Hm. lia.
Qed.
End traces.

(** ** FIFO: one step, then the loop *)

Section fifo.
Context {Page : Type} `{Countable Page}.
Implicit Types (pages : list Page) (p q r : Page) (st : sim_state Page).

Lemma fifo_step_ok frames p st :
  (1 ≤ frames)%Z → good frames (physical_memory st) →
  ∃ next,
    fifo_step frames p st =
      Ok (SimState next
            (page_faults st +
               (if decide (p ∉ physical_memory st) then 1 else 0))
            (movements st ++ [next]) (iterations st + 1)) ∧
    fifo_trans frames p (physical_memory st) next ∧
    good frames next.
Proof.
  intros Hf [Hnd Hlen]. unfold fifo_step.
  destruct (decide (p ∉ physical_memory st)) as [Hmiss|Hhit].
  - destruct (decide (Z.of_nat (length (physical_memory st)) < frames)%Z)
      as [Hroom|Hfull].
    + exists (physical_memory st ++ [p]). split_and!; [done | | ].
      * right; left. done.
      * split; [|rewrite length_app; simpl; lia].
        apply NoDup_app. split_and!; [done | | apply NoDup_singleton].
        intros x Hx ->%list_elem_of_singleton. done.
    + destruct (physical_memory st) as [|x m] eqn:Hm; [simpl in *; lia|].
      exists (m ++ [p]). split_and!; [done | | ].
      * right; right. split_and!; [done | lia | done].
      * apply NoDup_cons in Hnd as [_ Hnd].
        split; [|rewrite length_app; simpl in *; lia].
        apply NoDup_app. split_and!; [done | | apply NoDup_singleton].
        intros y Hy ->%list_elem_of_singleton. set_solver.
  - exists (physical_memory st). simpl. rewrite Nat.add_0_r.
    split_and!; [done | | done].
    left. split; [|done]. by apply dec_stable.
Qed.

Lemma fifo_loop_prefix frames pages n :
  (1 ≤ frames)%Z → n ≤ length pages →
  ∃ st, fifo_locals_after pages frames n = Ok st ∧
        run_inv (λ _, fifo_trans frames) frames pages n st.
Proof.
  intros Hf Hn.
  destruct (for_each_invariant (fifo_step frames)
              (run_inv (λ _, fifo_trans frames) frames pages)
              (take n pages) init_state) as (st & Hrun & Hinv).
  - apply run_inv_init. lia.
  - intros i p st Hp Hinv. apply lookup_take_Some in Hp as [Hp _].
    destruct (fifo_step_ok frames p st Hf) as (next & -> & HT & Hg).
    { destruct Hinv as (_ & _ & -> & _ & Hg & _). by apply Hg. }
    eexists; split; [done|]. by apply run_inv_step.
  - exists st. split; [done|]. by rewrite length_take_le in Hinv.
Qed.
End fifo.

(** ** LRU: recency bookkeeping, one step, then the loop *)

Section lru.
Context {Page : Type} `{Countable Page}.
Implicit Types (pages : list Page) (p q r : Page) (st : sim_state Page).
Implicit Types (idx : gmap Page nat).

Lemma is_last_access_S pages n p r j :
  pages !! n = Some p →
  is_last_access pages (S n) r j ↔
  (r = p ∧ j = n) ∨ (r ≠ p ∧ is_last_access pages n r j).
Proof.
  intros Hp. unfold is_last_access. split.
  - intros (Hj & Hr & Hlast). destruct (decide (j = n)) as [->|Hne].
    + left. split; congruence.
    + right. split_and!; [|lia|done|intros; apply Hlast; lia].
      intros ->. apply (Hlast n); [lia | done].
  - intros [[-> ->]|(Hne & Hj & Hr & Hlast)].
    + split_and!; [lia | done | intros; lia].
    + split_and!; [lia | done |]. intros j' Hj'.
      destruct (decide (j' = n)) as [->|]; [congruence | apply Hlast; lia].
Qed.

Lemma is_last_access_inj pages n r j1 j2 :
  is_last_access pages n r j1 → is_last_access pages n r j2 → j1 = j2.
Proof.
  intros (H1 & Hr1 & Hl1) (H2 & Hr2 & Hl2).
  destruct (Nat.lt_total j1 j2) as [Hlt|[->|Hlt]]; [|done|].
  - by destruct (Hl1 j2).
  - by destruct (Hl2 j1).
Qed.

Lemma records_last_access_0 pages : records_last_access pages 0 ∅.
Proof.
  intros r j. rewrite lookup_empty. split; [done|]. intros [? _]. lia.
Qed.

Lemma records_last_access_S pages n p idx :
  pages !! n = Some p → records_last_access pages n idx →
  records_last_access pages (S n) (<[p := n]> idx).
Proof.
  intros Hp Hrec r j. rewrite (is_last_access_S _ _ _ _ _ Hp).
  destruct (decide (p = r)) as [->|Hne].
  - rewrite lookup_insert_eq. naive_solver.
  - rewrite lookup_insert_ne by done. rewrite (Hrec r j). naive_solver.
Qed.

Lemma recency_sorted_snoc idx m p n :
  StronglySorted (recency_lt idx) m →
  (∀ x, x ∈ m → is_Some (idx !! x)) →
  p ∉ m →
  (∀ x j, idx !! x = Some j → j < n) →
  recency_sorted (<[p := n]> idx) (m ++ [p]).
Proof.
  intros Hss Hdef Hp Hbound. split.
  - induction m as [|x m IH]; simpl.
    + repeat constructor.
    + apply StronglySorted_cons in Hss as [Hx Hss].
      apply StronglySorted_cons. split.
      * apply Forall_app. split.
        -- rewrite Forall_forall in Hx. apply Forall_forall.
           intros y Hy. destruct (Hx y Hy) as (jx & jy & Hjx & Hjy & Hlt).
           exists jx, jy. rewrite !lookup_insert_ne by set_solver. done.
        -- apply Forall_singleton. destruct (Hdef x) as [jx Hjx];
             [set_solver|].
           exists jx, n. rewrite lookup_insert_ne by set_solver.
           rewrite lookup_insert_eq. split_and!; [done.. |].
           by apply (Hbound x).
      * apply IH; [done | intros; apply Hdef | ]; set_solver.
  - intros x [Hx| ->%list_elem_of_singleton]%elem_of_app.
    + destruct (decide (p = x)) as [->|]; [done|].
      rewrite lookup_insert_ne by done. by apply Hdef.
    + rewrite lookup_insert_eq. eauto.
Qed.

Lemma recency_sorted_remove idx l1 x l2 :
  recency_sorted idx (l1 ++ x :: l2) →
  StronglySorted (recency_lt idx) (l1 ++ l2) ∧
  ∀ y, y ∈ l1 ++ l2 → is_Some (idx !! y).
Proof.
  intros [Hss Hdef]. split; [|intros; apply Hdef; set_solver].
  apply StronglySorted_app in Hss as (Hcross & H1 & H2).
  apply StronglySorted_cons in H2 as [_ H2].
  apply StronglySorted_app. split_and!; [|done..].
  intros; apply Hcross; set_solver.
Qed.

(** In a recency-sorted list the minimum by recorded index is the head. *)
Lemma py_min_sorted idx x m :
  recency_sorted idx (x :: m) →
  py_min (dict_get idx) (x :: m) = Ok x.
Proof.
  intros [Hss Hdef].
  destruct (py_min_spec (λ y, default 0 (idx !! y)) (dict_get idx) x m)
    as (q & Hq & Hin & Hle).
  { intros y Hy. unfold dict_get. by destruct (Hdef y Hy) as [j ->]. }
  rewrite Hq. f_equal.
  apply elem_of_cons in Hin as [->|Hin]; [done|].
  apply StronglySorted_cons in Hss as [Hx _].
  rewrite Forall_forall in Hx.
  destruct (Hx q Hin) as (jx & jq & Hjx & Hjq & Hlt).
  specialize (Hle x). rewrite Hjx, Hjq in Hle. simpl in Hle.
  assert (jq ≤ jx) by (apply Hle; set_solver). lia.
Qed.

Lemma lru_step_ok pages frames n p st idx :
  (1 ≤ frames)%Z → pages !! n = Some p →
  good frames (physical_memory st) →
  records_last_access pages n idx →
  recency_sorted idx (physical_memory st) →
  ∃ next,
    lru_step frames (n, p) (st, idx) =
      Ok (SimState next
            (page_faults st +
               (if decide (p ∉ physical_memory st) then 1 else 0))
            (movements st ++ [next]) (iterations st + 1),
          <[p := n]> idx) ∧
    lru_trans pages frames n p (physical_memory st) next ∧
    good frames next ∧
    recency_sorted (<[p := n]> idx) next.
Proof.
  intros Hf Hp [Hnd Hlen] Hrec Hsorted. unfold lru_step.
  assert (∀ x j, idx !! x = Some j → j < n) as Hbound.
  { intros x j Hx. by apply Hrec in Hx as [? _]. }
  destruct (decide (p ∉ physical_memory st)) as [Hmiss|Hhit].
  - destruct (decide (Z.of_nat (length (physical_memory st)) < frames)%Z)
      as [Hroom|Hfull].
    + exists (physical_memory st ++ [p]). split_and!; [done | | | ].
      * right; left. done.
      * split; [|rewrite length_app; simpl; lia].
        apply NoDup_app. split_and!; [done | | apply NoDup_singleton].
        intros x Hx ->%list_elem_of_singleton. done.
      * destruct Hsorted. by apply recency_sorted_snoc.
    + destruct (physical_memory st) as [|x m] eqn:Hm; [simpl in *; lia|].
      rewrite (py_min_sorted _ _ _ Hsorted). rewrite bind_Ok. simpl.
      rewrite decide_True by done. simpl.
      exists (m ++ [p]).
      destruct (recency_sorted_remove idx [] x m Hsorted) as [Hss Hdef].
      apply NoDup_cons in Hnd as [Hxm Hnd].
      split_and!; [done | | | ].
      * right; right. split_and!; [done | lia |].
        destruct Hsorted as [Hs Hd].
        destruct (Hd x) as [jx Hjx]; [set_solver|].
        exists x, m, jx. split_and!; [done.. | by apply Hrec |].
        intros r Hr. apply StronglySorted_cons in Hs as [Hx _].
        rewrite Forall_forall in Hx.
        destruct (Hx r Hr) as (jx' & jr & Hjx' & Hjr & Hlt).
        exists jr. split; [by apply Hrec | congruence].
      * split; [|rewrite length_app; simpl in *; lia].
        apply NoDup_app. split_and!; [done | | apply NoDup_singleton].
        intros y Hy ->%list_elem_of_singleton. set_solver.
      * apply recency_sorted_snoc; [done.. | set_solver | done].
  - apply dec_stable in Hhit.
    destruct (list_remove_elem_of _ _ Hhit) as (l1 & l2 & Hsplit & Hl1 & ->).
    rewrite bind_Ok. exists ((l1 ++ l2) ++ [p]). simpl. rewrite Nat.add_0_r.
    rewrite Hsplit in Hnd, Hlen, Hsorted.
    assert (p ∉ l1 ++ l2) as Hnot.
    { apply NoDup_app in Hnd as (_ & Hdis & [Hpl2 _]%NoDup_cons).
      intros [?|?]%elem_of_app; [|done]. apply (Hdis p); set_solver. }
    destruct (recency_sorted_remove idx l1 p l2 Hsorted) as [Hss Hdef].
    split_and!; [done | | | ].
    + left. split; [done|]. exists l1, l2. by rewrite <-app_assoc.
    + split.
      * apply NoDup_app. split_and!; [ | | apply NoDup_singleton].
        -- apply (sublist_NoDup (l1 ++ l2) (l1 ++ p :: l2)); [done|].
           apply sublist_app; [done|]. by apply sublist_cons.
        -- intros y Hy ->%list_elem_of_singleton. done.
      * rewrite !length_app in *. simpl in *. lia.
    + by apply recency_sorted_snoc.
Qed.

Lemma lru_loop_prefix frames pages n :
  (1 ≤ frames)%Z → n ≤ length pages →
  ∃ s, lru_locals_after pages frames n = Ok s ∧ lru_inv pages frames n s.
Proof.
  intros Hf Hn.
  destruct (for_each_invariant (lru_step frames) (lru_inv pages frames)
              (take n (enumerate pages)) (init_state, ∅))
    as (s & Hrun & Hinv).
  - split_and!; simpl.
    + apply run_inv_init. lia.
    + apply records_last_access_0.
    + split; [constructor | set_solver].
  - intros i [i' p] [st idx] Hp (Hinv & Hrec & Hsorted).
    cbn [fst snd] in *.
    apply lookup_take_Some in Hp as [Hp _].
    rewrite enumerate_lookup in Hp.
    destruct (pages !! i) as [p'|] eqn:Hpi; [|done].
    simpl in Hp. injection Hp as Hi Hpp. subst i' p'.
    destruct (lru_step_ok pages frames i p st idx Hf Hpi)
      as (next & -> & HT & Hg & Hs); [|done..|].
    { destruct Hinv as (_ & _ & -> & _ & Hg & _). by apply Hg. }
    eexists; split; [done|]. split_and!; simpl.
    + by apply run_inv_step.
    + by apply records_last_access_S.
    + done.
  - exists s. split; [done|].
    rewrite length_take_le in Hinv; [done|].
    unfold enumerate. by rewrite length_enumerate_from.
Qed.
End lru.

(** ** Optimal: the victim search, one step, then the loop *)

Section optimal.
Context {Page : Type} `{Countable Page}.
Implicit Types (pages fut : list Page) (p q r : Page).
Implicit Types (st : sim_state Page).

Lemma next_use_le_length p fut : next_use p fut ≤ length fut.
Proof. induction fut; simpl; [done|]. case_decide; lia. Qed.

Lemma next_use_absent p fut : p ∉ fut → next_use p fut = length fut.
Proof.
  induction fut as [|x fut IH]; intros Hp; simpl; [done|].
  rewrite decide_False by set_solver. rewrite IH; [done | set_solver].
Qed.

Lemma next_use_first_occurrence p fut :
  p ∈ fut → first_occurrence fut p (next_use p fut).
Proof.
  induction fut as [|x fut IH]; intros Hp; [by apply not_elem_of_nil in Hp|].
  simpl. destruct (decide (x = p)) as [->|Hne].
  - split; [done | intros; lia].
  - destruct IH as [Hat Hbefore]; [set_solver|]. split; [done|].
    intros [|j'] Hj'; simpl; [congruence | apply Hbefore; lia].
Qed.

Lemma first_occurrence_inj fut p j1 j2 :
  first_occurrence fut p j1 → first_occurrence fut p j2 → j1 = j2.
Proof.
  intros [H1 Hb1] [H2 Hb2].
  destruct (Nat.lt_total j1 j2) as [Hlt|[->|Hlt]]; [|done|].
  - by destruct (Hb2 j1).
  - by destruct (Hb1 j2).
Qed.

(** The victim search: the first resident page that is never referenced
    again if there is one, otherwise a page referenced farthest ahead. *)
Lemma find_replacement_spec fut fs farthest_index page_to_replace seen :
  acc_ok fut seen farthest_index page_to_replace →
  seen ≠ [] ∨ fs ≠ [] →
  ∃ q, find_replacement fut fs farthest_index page_to_replace
         = Ok (Some q) ∧
       ((∃ l1 l2, fs = l1 ++ q :: l2 ∧ (q ∉ fut) ∧ ∀ r, r ∈ l1 → r ∈ fut) ∨
        ((∀ r, r ∈ fs → r ∈ fut) ∧ q ∈ seen ++ fs ∧
         ∀ r, r ∈ seen ++ fs → next_use r fut ≤ next_use q fut)).
Proof.
  revert farthest_index page_to_replace seen.
  induction fs as [|f fs IH]; intros far cand seen Hacc Hne; simpl.
  - destruct Hne as [Hne|]; [|done].
    destruct cand as [c|]; [|by destruct Hacc].
    destruct Hacc as (Hc & _ & Hmax). exists c. split; [done|]. right.
    rewrite app_nil_r. split_and!; [set_solver | done..].
  - destruct (decide (f ∉ fut)) as [Hout|Hin].
    { exists f. split; [done|]. left. exists [], fs. set_solver. }
    apply dec_stable in Hin. rewrite (list_index_next_use _ _ Hin).
    rewrite bind_Ok.
    assert (∀ far' cand',
      acc_ok fut (seen ++ [f]) far' cand' →
      ∃ q, find_replacement fut fs far' cand' = Ok (Some q) ∧
        ((∃ l1 l2, f :: fs = l1 ++ q :: l2 ∧ (q ∉ fut) ∧
                   ∀ r, r ∈ l1 → r ∈ fut) ∨
         ((∀ r, r ∈ f :: fs → r ∈ fut) ∧ q ∈ seen ++ f :: fs ∧
          ∀ r, r ∈ seen ++ f :: fs → next_use r fut ≤ next_use q fut)))
      as Hrec.
    { intros far' cand' Hacc'.
      destruct (IH far' cand' (seen ++ [f]) Hacc') as (q & Hq & Hcase).
      { left. by destruct seen. }
      exists q. split; [done|].
      destruct Hcase as [(l1 & l2 & -> & Hqf & Hl1)|(Hall & Hqin & Hmax)].
      - left. exists (f :: l1), l2. split_and!; [done.. |]. set_solver.
      - right. rewrite <-app_assoc in Hqin, Hmax.
        split_and!; [set_solver | done..]. }
    destruct (decide (far < Z.of_nat (next_use f fut))%Z) as [Hlt|Hge].
    + apply Hrec. split_and!; [set_solver | done |].
      intros r [Hr| ->%list_elem_of_singleton]%elem_of_app; [|done].
      destruct cand as [c|]; [|destruct Hacc as [_ ->]; set_solver].
      destruct Hacc as (_ & -> & Hmax). specialize (Hmax r Hr). lia.
    + apply Hrec. destruct cand as [c|]; [|destruct Hacc; lia].
      destruct Hacc as (Hc & -> & Hmax). split_and!; [set_solver | done |].
      intros r [Hr| ->%list_elem_of_singleton]%elem_of_app;
        [by apply Hmax | lia].
Qed.

Lemma optimal_step_ok pages frames n p st :
  (1 ≤ frames)%Z → good frames (physical_memory st) →
  ∃ next,
    optimal_step pages frames (n, p) st =
      Ok (SimState next
            (page_faults st +
               (if decide (p ∉ physical_memory st) then 1 else 0))
            (movements st ++ [next]) (iterations st + 1)) ∧
    optimal_trans pages frames n p (physical_memory st) next ∧
    good frames next.
Proof.
  intros Hf [Hnd Hlen]. unfold optimal_step.
  destruct (decide (p ∉ physical_memory st)) as [Hmiss|Hhit].
  - destruct (decide (Z.of_nat (length (physical_memory st)) < frames)%Z)
      as [Hroom|Hfull].
    + exists (physical_memory st ++ [p]). split_and!; [done | | ].
      * right; left. done.
      * split; [|rewrite length_app; simpl; lia].
        apply NoDup_app. split_and!; [done | | apply NoDup_singleton].
        intros x Hx ->%list_elem_of_singleton. done.
    + cbv zeta. rewrite (Nat.add_1_r n). set (fut := drop (S n) pages).
      destruct (find_replacement_spec fut (physical_memory st) (-1) None [])
        as (q & -> & Hcase); [done | | ].
      { right. intros Hnil. rewrite Hnil in Hfull. simpl in Hfull. lia. }
      rewrite bind_Ok. simpl in Hcase. unfold remove_choice.
      assert (∃ l1 l2, physical_memory st = l1 ++ q :: l2 ∧ (q ∉ l1) ∧
                ((∃ r, r ∈ physical_memory st ∧ (r ∉ fut)) →
                 (q ∉ fut) ∧ ∀ r, r ∈ l1 → r ∈ fut) ∧
                ((∀ r, r ∈ physical_memory st → r ∈ fut) →
                 ∀ r, r ∈ physical_memory st →
                      next_use r fut ≤ next_use q fut))
        as (l1 & l2 & Hsplit & Hql1 & Hnever & Hfar).
      { destruct Hcase as [(l1 & l2 & Hsplit & Hqf & Hl1)|(Hall & Hq & Hmax)].
        - exists l1, l2. split_and!; [done | | done |].
          + intros Hq. by apply Hl1 in Hq.
          + intros Hall. destruct Hqf. apply Hall. rewrite Hsplit.
            set_solver.
        - destruct (list_elem_of_split_l _ _ Hq) as (l1 & l2 & Hsplit & Hl1).
          exists l1, l2. split_and!; [done.. | | done].
          intros (r & Hr & Hrf). destruct Hrf. by apply Hall. }
      rewrite Hsplit, (list_remove_split _ _ _ Hql1), bind_Ok.
      exists ((l1 ++ l2) ++ [p]). rewrite <-Hsplit.
      split_and!; [done | | ].
      * right; right. split_and!; [done | lia |].
        exists q, l1, l2. by rewrite <-app_assoc.
      * rewrite Hsplit in Hnd, Hlen, Hmiss. split.
        -- apply NoDup_app. split_and!; [ | | apply NoDup_singleton].
           ++ apply (sublist_NoDup (l1 ++ l2) (l1 ++ q :: l2)); [done|].
              apply sublist_app; [done|]. by apply sublist_cons.
           ++ intros y Hy ->%list_elem_of_singleton. set_solver.
        -- rewrite !length_app in *. simpl in *. lia.
  - exists (physical_memory st). simpl. rewrite Nat.add_0_r.
    split_and!; [done | | done].
    left. split; [|done]. by apply dec_stable.
Qed.

Lemma optimal_loop_prefix frames pages n :
  (1 ≤ frames)%Z → n ≤ length pages →
  ∃ st, optimal_locals_after pages frames n = Ok st ∧
        run_inv (optimal_trans pages frames) frames pages n st.
Proof.
  intros Hf Hn.
  destruct (for_each_invariant (optimal_step pages frames)
              (run_inv (optimal_trans pages frames) frames pages)
              (take n (enumerate pages)) init_state) as (st & Hrun & Hinv).
  - apply run_inv_init. lia.
  - intros i [i' p] st Hp Hinv. apply lookup_take_Some in Hp as [Hp _].
    rewrite enumerate_lookup in Hp.
    destruct (pages !! i) as [p'|] eqn:Hpi; [|done].
    simpl in Hp. injection Hp as Hi Hpp. subst i' p'.
    destruct (optimal_step_ok pages frames i p st Hf)
      as (next & -> & HT & Hg).
    { destruct Hinv as (_ & _ & -> & _ & Hg & _). by apply Hg. }
    eexists; split; [done|]. by apply run_inv_step.
  - exists st. split; [done|].
    rewrite length_take_le in Hinv; [done|].
    unfold enumerate. by rewrite length_enumerate_from.
Qed.
End optimal.

(** ** The three loops, seen through the algorithm menu *)

Section runs.
Context {Page : Type} `{Countable Page}.
Context {Time : Type} (time_sub : Time → Time → Time).
Implicit Types (pages : list Page) (st : sim_state Page).
Implicit Types (clock : nat → Time) (algorithm : string).

Lemma algorithms_cases algorithm :
  algorithm ∈ algorithms →
  algorithm = "FIFO" ∨ algorithm = "LRU" ∨ algorithm = "Optimal".
Proof. unfold algorithms. rewrite !elem_of_cons, elem_of_nil. tauto. Qed.

Lemma fifo_step_appends frames (p : Page) st st' :
  fifo_step frames p st = Ok st' →
  ∃ next, movements st' = movements st ++ [next].
Proof.
  unfold fifo_step. intros ([pm pf] & _ & Hret)%bind_Ok_inv.
  injection Hret as <-. eauto.
Qed.

Lemma lru_step_appends frames (ip : nat * Page) s s' :
  lru_step frames ip s = Ok s' →
  ∃ next, movements s'.1 = movements s.1 ++ [next].
Proof.
  unfold lru_step. destruct ip as [i p], s as [st idx].
  intros ([pm pf] & _ & Hret)%bind_Ok_inv. injection Hret as <-. eauto.
Qed.

Lemma optimal_step_appends pages frames (ip : nat * Page) st st' :
  optimal_step pages frames ip st = Ok st' →
  ∃ next, movements st' = movements st ++ [next].
Proof.
  unfold optimal_step. destruct ip as [i p].
  intros ([pm pf] & _ & Hret)%bind_Ok_inv. injection Hret as <-. eauto.
Qed.

(** A loop whose steps only append snapshots extends the snapshot list. *)
Lemma for_each_movements_prefix {St X} (proj : St → sim_state Page)
    (body : X → St → result St) (xs : list X) (s s' : St) :
  (∀ y t t', body y t = Ok t' →
             ∃ next, movements (proj t') = movements (proj t) ++ [next]) →
  for_each body xs s = Ok s' →
  movements (proj s) `prefix_of` movements (proj s').
Proof.
  intros Happ. revert s. induction xs as [|y xs IH]; intros s; simpl.
  - by intros [= ->].
  - intros (t & Hy & Hrest)%bind_Ok_inv.
    destruct (Happ _ _ _ Hy) as [next Hnext].
    etrans; [|by apply IH]. rewrite Hnext. by apply prefix_app_r.
Qed.

Lemma for_each_take_movements {St X} (proj : St → sim_state Page)
    (body : X → St → result St) (xs : list X) (s0 s sf : St) n :
  (∀ y t t', body y t = Ok t' →
             ∃ next, movements (proj t') = movements (proj t) ++ [next]) →
  for_each body (take n xs) s0 = Ok s →
  for_each body xs s0 = Ok sf →
  length (movements (proj s)) = n →
  movements (proj s) = take n (movements (proj sf)).
Proof.
  intros Happ Hs Hsf Hlen.
  rewrite <-(take_drop n xs), for_each_app, Hs, bind_Ok in Hsf.
  destruct (for_each_movements_prefix proj body _ _ _ Happ Hsf)
    as [ext Hext].
  by rewrite Hext, <-Hlen, take_app_length.
Qed.

(** The loop of every algorithm runs to its end and keeps the invariant. *)
Lemma locals_after_spec algorithm pages frames n :
  algorithm ∈ algorithms → (1 ≤ frames)%Z → n ≤ length pages →
  ∃ st, locals_after algorithm pages frames n = Ok st ∧
        run_inv (policy_trans algorithm pages frames) frames pages n st.
Proof.
  intros [->|[->| ->]]%algorithms_cases Hf Hn;
    unfold locals_after, policy_trans; simpl.
  - by apply fifo_loop_prefix.
  - destruct (lru_loop_prefix frames pages n Hf Hn) as (s & -> & Hinv & _).
    eauto.
  - by apply optimal_loop_prefix.
Qed.

Lemma locals_after_all algorithm clock pages frames st :
  locals_after algorithm pages frames (length pages) = Ok st →
  run_algorithm time_sub algorithm clock pages frames =
    Ok (make_report time_sub (clock 0) (clock 1) st).
Proof.
  unfold locals_after, run_algorithm.
  unfold fifo_locals_after, lru_locals_after, optimal_locals_after.
  unfold fifo_page_replacement, lru_page_replacement,
    optimal_page_replacement.
  rewrite !take_length_enumerate, firstn_all.
  repeat case_decide; try done.
  - by intros ->.
  - by intros (s & -> & [= <-])%bind_Ok_inv.
  - by intros ->.
Qed.

Lemma run_algorithm_spec algorithm clock pages frames :
  algorithm ∈ algorithms → (1 ≤ frames)%Z →
  ∃ st, run_algorithm time_sub algorithm clock pages frames =
          Ok (make_report time_sub (clock 0) (clock 1) st) ∧
        locals_after algorithm pages frames (length pages) = Ok st ∧
        run_inv (policy_trans algorithm pages frames) frames pages
          (length pages) st.
Proof.
  intros Halg Hf.
  destruct (locals_after_spec algorithm pages frames (length pages))
    as (st & Hst & Hinv); [done.. |].
  exists st. split_and!; [by apply locals_after_all | done..].
Qed.

(** The snapshots taken in the first [n] iterations are the first [n]
    snapshots returned. *)
Lemma locals_after_movements algorithm pages frames n s st :
  locals_after algorithm pages frames n = Ok s →
  locals_after algorithm pages frames (length pages) = Ok st →
  length (movements s) = n →
  movements s = take n (movements st).
Proof.
  unfold locals_after.
  unfold fifo_locals_after, lru_locals_after, optimal_locals_after.
  rewrite !take_length_enumerate, firstn_all.
  repeat case_decide; try done.
  - intros Hs Hst. apply (for_each_take_movements id _ _ _ _ _ _
      (fifo_step_appends frames) Hs Hst).
  - intros (s1 & Hs & [= <-])%bind_Ok_inv (s2 & Hst & [= <-])%bind_Ok_inv.
    apply (for_each_take_movements fst _ _ _ _ _ _
      (lru_step_appends frames) Hs Hst).
  - intros Hs Hst. apply (for_each_take_movements id _ _ _ _ _ _
      (optimal_step_appends pages frames) Hs Hst).
Qed.
End runs.

(** ** Properties of every policy *)

Section claims.
Context {Page : Type} `{Countable Page}.
Context {Time : Type} (time_sub : Time → Time → Time).
Implicit Types (pages : list Page) (st : sim_state Page).
Implicit Types (clock : nat → Time) (algorithm : string).

(** C4: for every trace and every capacity of at least 1, under each of
    the three policies, the fault counter goes up at a step exactly when the
    page referenced is absent from the frame list left by the step before
    (which is the frame list the loop holds at that point), and the fault
    count returned is the number of such steps. *)
Theorem fault_count_counts_misses algorithm clock pages frames :
  algorithm ∈ algorithms → (1 ≤ frames)%Z →
  ∃ faults mem movs t its,
    run_algorithm time_sub algorithm clock pages frames =
      Ok (faults, mem, movs, t, its) ∧
    faults = count_true (miss_flags pages movs) ∧
    ∀ n p, pages !! n = Some p →
      ∃ s s',
        locals_after algorithm pages frames n = Ok s ∧
        locals_after algorithm pages frames (S n) = Ok s' ∧
        physical_memory s = frames_before movs n ∧
        page_faults s' =
          page_faults s +
          (if decide (p ∉ frames_before movs n) then 1 else 0).
Proof.
  intros Halg Hf.
  destruct (run_algorithm_spec time_sub algorithm clock pages frames)
    as (st & Hrun & Hloc & Hinv); [done.. |].
  destruct (run_inv_final _ _ _ _ Hinv) as (Hpf & Hlen & Hit & Hmem).
  exists (page_faults st), (physical_memory st), (movements st),
    (time_sub (clock 1) (clock 0)), (iterations st).
  split_and!; [done.. |]. intros n p Hp.
  assert (n < length pages) as Hn by by apply lookup_lt_Some in Hp.
  destruct (locals_after_spec algorithm pages frames n)
    as (s & Hs & Hsinv); [done | done | lia |].
  destruct (locals_after_spec algorithm pages frames (S n))
    as (s' & Hs' & Hsinv'); [done | done | lia |].
  exists s, s'. split_and!; [done.. | | ].
  - destruct Hsinv as (Hl & _ & -> & _).
    rewrite (locals_after_movements _ _ _ _ _ _ Hs Hloc Hl).
    by apply frames_before_take.
  - destruct Hsinv as (Hl & _ & _ & -> & _).
    destruct Hsinv' as (Hl' & _ & _ & -> & _).
    rewrite (locals_after_movements _ _ _ _ _ _ Hs Hloc Hl).
    rewrite (locals_after_movements _ _ _ _ _ _ Hs' Hloc Hl').
    rewrite !miss_flags_take by done.
    rewrite (count_true_take_S _ n (bool_decide (p ∉ frames_before
      (movements st) n))); [|by rewrite miss_flags_lookup, Hp].
    f_equal. destruct (decide (p ∉ frames_before (movements st) n)).
    + by rewrite bool_decide_eq_true_2.
    + by rewrite bool_decide_eq_false_2.
Qed.

(** C5: for every trace and every capacity of at least 1, under each of
    the three policies, there are as many snapshots as references, and
    every snapshot holds between 0 and [frames] pages, none of them
    twice. *)
Theorem snapshots_within_capacity algorithm clock pages frames :
  algorithm ∈ algorithms → (1 ≤ frames)%Z →
  ∃ faults mem movs t its,
    run_algorithm time_sub algorithm clock pages frames =
      Ok (faults, mem, movs, t, its) ∧
    length movs = length pages ∧
    ∀ m, m ∈ movs →
      NoDup m ∧ (0 ≤ Z.of_nat (length m) ≤ frames)%Z.
Proof.
  intros Halg Hf.
  destruct (run_algorithm_spec time_sub algorithm clock pages frames)
    as (st & Hrun & Hloc & Hinv); [done.. |].
  destruct (run_inv_final _ _ _ _ Hinv) as (Hpf & Hlen & Hit & Hmem).
  exists (page_faults st), (physical_memory st), (movements st),
    (time_sub (clock 1) (clock 0)), (iterations st).
  split_and!; [done.. |]. intros m (i & Hm)%list_elem_of_lookup.
  destruct (run_inv_snapshot_good _ _ _ _ _ _ _ Hinv Hm) as [Hnd Hle].
  split; [done | lia].
Qed.

(** C9: for every trace, every capacity of at least 1 and every policy,
    two runs on the same inputs return the same fault count, the same
    snapshots, the same final frame list and the same iteration count,
    whatever the clock reads; only the elapsed time depends on the
    clock. *)
Theorem runs_agree algorithm clock1 clock2 pages frames :
  algorithm ∈ algorithms → (1 ≤ frames)%Z →
  ∃ faults mem movs t1 t2 its,
    run_algorithm time_sub algorithm clock1 pages frames =
      Ok (faults, mem, movs, t1, its) ∧
    run_algorithm time_sub algorithm clock2 pages frames =
      Ok (faults, mem, movs, t2, its).
Proof.
  intros Halg Hf.
  destruct (locals_after_spec algorithm pages frames (length pages))
    as (st & Hst & _); [done.. |].
  exists (page_faults st), (physical_memory st), (movements st),
    (time_sub (clock1 1) (clock1 0)), (time_sub (clock2 1) (clock2 0)),
    (iterations st).
  split; by apply locals_after_all.
Qed.
Lemma lru_run clock pages frames :
  (1 ≤ frames)%Z →
  ∃ st, lru_page_replacement time_sub clock pages frames =
          Ok (make_report time_sub (clock 0) (clock 1) st) ∧
        run_inv (lru_trans pages frames) frames pages (length pages) st.
Proof.
  intros Hf.
  destruct (run_algorithm_spec time_sub "LRU" clock pages frames)
    as (st & Hrun & _ & Hinv); [set_solver | done |]. eauto.
Qed.

Lemma optimal_run clock pages frames :
  (1 ≤ frames)%Z →
  ∃ st, optimal_page_replacement time_sub clock pages frames =
          Ok (make_report time_sub (clock 0) (clock 1) st) ∧
        run_inv (optimal_trans pages frames) frames pages (length pages)
          st.
Proof.
  intros Hf.
  destruct (run_algorithm_spec time_sub "Optimal" clock pages frames)
    as (st & Hrun & _ & Hinv); [set_solver | done |]. eauto.
Qed.

Lemma fifo_run clock pages frames :
  (1 ≤ frames)%Z →
  ∃ st, fifo_page_replacement time_sub clock pages frames =
          Ok (make_report time_sub (clock 0) (clock 1) st) ∧
        run_inv (λ _, fifo_trans frames) frames pages (length pages) st.
Proof.
  intros Hf.
  destruct (run_algorithm_spec time_sub "FIFO" clock pages frames)
    as (st & Hrun & _ & Hinv); [set_solver | done |]. eauto.
Qed.

(** C6: for every trace and every capacity of at least 1, whenever LRU
    misses with all frames taken, the snapshot of that step is the frame
    list before it without one page [q], followed by the new page, and
    [q] is the resident page whose last access is the earliest: every
    other resident page was last accessed at a later step. In particular,
    on [A,B,C,A,D] with 3 frames the miss on D evicts B, the final frame
    list is [C,A,D] and there are 4 faults. *)
Theorem lru_evicts_least_recent clock pages frames :
  (1 ≤ frames)%Z →
  (∃ faults mem movs t its,
     lru_page_replacement time_sub clock pages frames =
       Ok (faults, mem, movs, t, its) ∧
     ∀ i p, pages !! i = Some p →
       p ∉ frames_before movs i →
       (frames ≤ Z.of_nat (length (frames_before movs i)))%Z →
       ∃ q l1 l2 jq,
         frames_before movs i = l1 ++ q :: l2 ∧
         movs !! i = Some (l1 ++ l2 ++ [p]) ∧
         is_last_access pages i q jq ∧
         ∀ r, r ∈ frames_before movs i → r ≠ q →
              ∃ jr, is_last_access pages i r jr ∧ jq < jr) ∧
  lru_page_replacement time_sub clock ["A"; "B"; "C"; "A"; "D"] 3 =
    Ok (4, ["C"; "A"; "D"],
        [["A"]; ["A"; "B"]; ["A"; "B"; "C"]; ["B"; "C"; "A"];
         ["C"; "A"; "D"]],
        time_sub (clock 1) (clock 0), 5).
Proof.
  intros Hf. split; [|reflexivity].
  destruct (lru_run clock pages frames Hf) as (st & Hrun & Hinv).
  exists (page_faults st), (physical_memory st), (movements st),
    (time_sub (clock 1) (clock 0)), (iterations st).
  split; [done|]. intros i p Hp Hmiss Hfull.
  destruct Hinv as (_ & _ & _ & _ & _ & Htr).
  destruct (Htr i p) as (next & Hnext & HT);
    [by apply lookup_lt_Some in Hp | done |].
  destruct HT as [[Hin _]|[(_ & Hroom & _)|(_ & _ & Hev)]];
    [done | lia |].
  destruct Hev as (q & rest & jq & Hprev & -> & Hq & Hrest).
  exists q, [], rest, jq. split_and!; [done.. |].
  intros r Hr Hne. apply Hrest. rewrite Hprev in Hr. set_solver.
Qed.

(** C7: for every trace and every capacity of at least 1, Optimal returns,
    every step leaves a snapshot that holds the page referenced, and
    whenever it misses with all frames taken the snapshot of that step is
    the frame list before it without one page [q], followed by the new
    page. If some resident page is never referenced after the current
    position, [q] is the first such page of the frame list; if every
    resident page is referenced again, [q] is the one whose next
    reference is the farthest. Both cases on worked traces: on
    [A,B,C,A,B,D,A] with 3 frames the miss on D finds [A,B,C] with only A
    referenced again and evicts B; on [A,B,C,A,B] with 2 frames the miss
    on C finds [A,B] with A referenced next and B after it, and evicts B. *)
Theorem optimal_eviction_rule clock pages frames :
  (1 ≤ frames)%Z →
  (∃ faults mem movs t its,
     optimal_page_replacement time_sub clock pages frames =
       Ok (faults, mem, movs, t, its) ∧
     ∀ i p, pages !! i = Some p →
       let prev := frames_before movs i in
       let fut := drop (S i) pages in
       ∃ m, movs !! i = Some m ∧ p ∈ m ∧
         (p ∉ prev →
          (frames ≤ Z.of_nat (length prev))%Z →
          ∃ q l1 l2,
            prev = l1 ++ q :: l2 ∧
            m = l1 ++ l2 ++ [p] ∧
            ((∃ r, r ∈ prev ∧ (r ∉ fut)) →
             (q ∉ fut) ∧ ∀ r, r ∈ l1 → r ∈ fut) ∧
            ((∀ r, r ∈ prev → r ∈ fut) →
             ∀ r, r ∈ prev →
               ∃ jq jr, first_occurrence fut q jq ∧
                        first_occurrence fut r jr ∧ jr ≤ jq))) ∧
  optimal_page_replacement time_sub clock
    ["A"; "B"; "C"; "A"; "B"; "D"; "A"] 3 =
    Ok (4, ["A"; "C"; "D"],
        [["A"]; ["A"; "B"]; ["A"; "B"; "C"]; ["A"; "B"; "C"];
         ["A"; "B"; "C"]; ["A"; "C"; "D"]; ["A"; "C"; "D"]],
        time_sub (clock 1) (clock 0), 7) ∧
  optimal_page_replacement time_sub clock ["A"; "B"; "C"; "A"; "B"] 2 =
    Ok (4, ["C"; "B"],
        [["A"]; ["A"; "B"]; ["A"; "C"]; ["A"; "C"]; ["C"; "B"]],
        time_sub (clock 1) (clock 0), 5).
Proof.
  intros Hf. split_and!; [|reflexivity..].
  destruct (optimal_run clock pages frames Hf) as (st & Hrun & Hinv).
  exists (page_faults st), (physical_memory st), (movements st),
    (time_sub (clock 1) (clock 0)), (iterations st).
  split; [done|]. intros i p Hp prev fut.
  destruct Hinv as (_ & _ & _ & _ & _ & Htr).
  destruct (Htr i p) as (next & Hnext & HT);
    [by apply lookup_lt_Some in Hp | done |].
  exists next. split; [done|]. fold prev in HT.
  destruct HT as [[Hin ->]|[(Hout & Hroom & ->)|(Hout & Hfull & Hev)]].
  - split; [done|]. by intros Hmiss.
  - split; [set_solver|]. intros _ Hfull. lia.
  - destruct Hev as (q & l1 & l2 & Hprev & -> & Hnever & Hfar).
    split; [set_solver|]. intros _ _.
    exists q, l1, l2. split_and!; [done.. |].
    intros Hall r Hr. exists (next_use q fut), (next_use r fut).
    split_and!.
    + apply next_use_first_occurrence, Hall. rewrite Hprev. set_solver.
    + by apply next_use_first_occurrence, Hall.
    + by apply Hfar.
Qed.

(** C10: in the LRU loop, for every trace and every capacity of at least
    1, after any number of steps the frame list is in strictly increasing
    order of the index recorded in [page_indices], which is the step of
    the last access of each resident page. So on a miss with all frames
    taken the minimum by recorded index is the head of the list, and the
    step leaves the tail of the list followed by the new page. *)
Theorem lru_memory_recency_ordered pages frames n :
  (1 ≤ frames)%Z → n ≤ length pages →
  ∃ st idx,
    lru_locals_after pages frames n = Ok (st, idx) ∧
    StronglySorted (recency_lt idx) (physical_memory st) ∧
    (∀ x, x ∈ physical_memory st →
          ∃ j, idx !! x = Some j ∧ is_last_access pages n x j) ∧
    ∀ p, pages !! n = Some p →
      p ∉ physical_memory st →
      (frames ≤ Z.of_nat (length (physical_memory st)))%Z →
      ∃ q rest st' idx',
        physical_memory st = q :: rest ∧
        py_min (dict_get idx) (physical_memory st) = Ok q ∧
        lru_locals_after pages frames (S n) = Ok (st', idx') ∧
        physical_memory st' = rest ++ [p].
Proof.
  intros Hf Hn.
  destruct (lru_loop_prefix frames pages n Hf Hn)
    as ([st idx] & Hrun & Hinv & Hrec & Hsorted).
  cbn [fst snd] in *. exists st, idx. split_and!; [done | apply Hsorted | | ].
  - intros x Hx. destruct Hsorted as [_ Hdef].
    destruct (Hdef x Hx) as [j Hj]. exists j. split; [done|].
    by apply Hrec.
  - intros p Hp Hmiss Hfull.
    destruct (physical_memory st) as [|q rest] eqn:Hmem;
      [simpl in Hfull; lia|].
    assert (good frames (physical_memory st)) as Hgood.
    { destruct Hinv as (_ & _ & -> & _ & Hg & _). by apply Hg. }
    destruct (lru_step_ok pages frames n p st idx Hf Hp Hgood Hrec)
      as (next & Hstep & HT & _); [by rewrite Hmem|].
    rewrite Hmem in HT.
    destruct HT as [[Hin _]|[(_ & Hroom & _)|(_ & _ & Hev)]];
      [done | lia |].
    destruct Hev as (q' & rest' & jq & [= <- <-] & -> & _).
    eexists q, rest, _, _. split_and!; [done | | | ].
    + by apply py_min_sorted.
    + unfold lru_locals_after in *.
      rewrite (for_each_take_S _ _ _ n (n, p)), Hrun, bind_Ok.
      * exact Hstep.
      * by rewrite enumerate_lookup, Hp.
    + done.
Qed.
End claims.

(** ** Optimal against every demand-paging schedule *)

Section belady.
Context {Page : Type} `{Countable Page}.
Implicit Types (pages fut : list Page) (p q r x y : Page).
Implicit Types (A B C K : gset Page).

(** More resident pages never cost more faults. *)
Lemma sched_mono frames A B fut n :
  B ⊆ A → sched frames B fut n → ∃ m, m ≤ n ∧ sched frames A fut m.
Proof.
  intros Hsub Hs. revert A Hsub.
  induction Hs as [B|B p fut n Hp Hs IH|B B' p fut n Hp Hsub' Hp' Hsz Hs IH];
    intros A Hsub.
  - exists 0. split; [done | constructor].
  - destruct (IH A Hsub) as (m & Hm & Hsm). exists m. split; [done|].
    apply sched_hit; [set_solver | done].
  - destruct (decide (p ∈ A)) as [HpA|HpA].
    + destruct (IH A) as (m & Hm & Hsm); [set_solver|].
      exists m. split; [lia|]. by apply sched_hit.
    + exists (S n). split; [done|].
      apply (sched_miss frames A B'); [done | set_solver | done..].
Qed.

(** One page of difference costs at most one fault. *)
Lemma sched_one_off frames A B y fut n :
  B ⊆ A ∪ {[y]} → (Z.of_nat (size B) ≤ frames)%Z →
  sched frames B fut n → ∃ m, m ≤ S n ∧ sched frames A fut m.
Proof.
  intros Hsub Hsize Hs. revert A Hsub Hsize.
  induction Hs as [B|B p fut n Hp Hs IH|B B' p fut n Hp Hsub' Hp' Hsz Hs IH];
    intros A Hsub Hsize.
  - exists 0. split; [lia | constructor].
  - destruct (decide (p ∈ A)) as [HpA|HpA].
    + destruct (IH A Hsub Hsize) as (m & Hm & Hsm).
      exists m. split; [done|]. by apply sched_hit.
    + exists (S n). split; [done|]. clear IH.
      assert (p = y) as -> by set_solver.
      apply (sched_miss frames A B); done.
  - destruct (decide (p ∈ A)) as [HpA|HpA].
    + destruct (IH A) as (m & Hm & Hsm); [set_solver | done |].
      exists m. split; [lia|]. by apply sched_hit.
    + destruct (IH (B' ∖ {[y]} ∪ {[p]})) as (m & Hm & Hsm); [|done|].
      { intros z Hz. destruct (decide (z = y)); set_solver. }
      exists (S m). split; [lia|].
      apply (sched_miss frames A (B' ∖ {[y]} ∪ {[p]}));
        [done | set_solver | set_solver | | done].
      assert (size (B' ∖ {[y]} ∪ {[p]}) ≤ size B'); [|lia].
      apply subseteq_size. set_solver.
Qed.

(** Keeping the page that is used sooner never costs more faults. *)
Lemma sched_exchange frames K x y fut n :
  x ≠ y → x ∉ K → y ∉ K →
  next_use x fut ≤ next_use y fut →
  sched frames (K ∪ {[y]}) fut n →
  ∃ m, m ≤ n ∧ sched frames (K ∪ {[x]}) fut m.
Proof.
  intros Hxy. revert K n.
  induction fut as [|p fut IH]; intros K n Hx Hy Hnext Hs.
  - inversion Hs; subst. exists 0. split; [lia | constructor].
  - simpl in Hnext.
    destruct (decide (p = y)) as [->|Hpy].
    { exfalso. repeat case_decide; (done || lia). }
    destruct (decide (p = x)) as [->|Hpx].
    + inversion Hs as [|B p' fut' n' Hp Hs'|B B' p' fut' n' Hp Hsub Hp' Hsz Hs'];
        subst; [set_solver|].
      destruct (sched_one_off frames (K ∪ {[x]}) B' y fut n')
        as (m & Hm & Hsm); [set_solver | done | done |].
      exists m. split; [done|]. apply sched_hit; [set_solver | done].
    + inversion Hs as [|B p' fut' n' Hp Hs'|B B' p' fut' n' Hp Hsub Hp' Hsz Hs'];
        subst.
      * destruct (IH K n) as (m & Hm & Hsm); [done | done | lia | done |].
        exists m. split; [done|]. apply sched_hit; [set_solver | done].
      * destruct (decide (y ∈ B')) as [HyB|HyB].
        -- assert (B' = B' ∖ {[y]} ∪ {[y]}) as HB.
           { apply set_eq. intros z.
             destruct (decide (z = y)); set_solver. }
           rewrite HB in Hs'.
           destruct (IH (B' ∖ {[y]}) n') as (m & Hm & Hsm);
             [set_solver | set_solver | lia | done |].
           exists (S m). split; [lia|].
           apply (sched_miss frames _ (B' ∖ {[y]} ∪ {[x]}));
             [set_solver | set_solver | set_solver | | done].
           assert (size (B' ∖ {[y]} ∪ {[x]}) = size B'); [|lia].
           rewrite HB at 2.
           assert (B' ∖ {[y]} ## ({[x]} : gset Page)) as Hdx by set_solver.
           assert (B' ∖ {[y]} ## ({[y]} : gset Page)) as Hdy by set_solver.
           by rewrite (size_union _ _ Hdx), (size_union _ _ Hdy),
             !size_singleton.
        -- exists (S n'). split; [done|].
           apply (sched_miss frames _ B'); [set_solver | | done..].
           set_solver.
Qed.

Lemma drop_miss_flags pages movs i p :
  pages !! i = Some p →
  drop i (miss_flags pages movs) =
  bool_decide (p ∉ frames_before movs i) ::
    drop (S i) (miss_flags pages movs).
Proof.
  intros Hp. apply drop_S. by rewrite miss_flags_lookup, Hp.
Qed.

Lemma drop_miss_flags_all pages movs i :
  length pages ≤ i → count_true (drop i (miss_flags pages movs)) = 0.
Proof.
  intros Hi. rewrite drop_ge; [done|]. by rewrite length_miss_flags.
Qed.

(** A run made of lazy steps is a demand-paging schedule. *)
Lemma lazy_trace_sched frames pages movs :
  (∀ i p, pages !! i = Some p →
     ∃ next, movs !! i = Some next ∧
             lazy_step frames p (frames_before movs i) next) →
  ∀ d i, i + d = length pages →
    sched frames (list_to_set (frames_before movs i)) (drop i pages)
      (count_true (drop i (miss_flags pages movs))).
Proof.
  intros Hlazy d. induction d as [|d IH]; intros i Hi.
  - rewrite drop_miss_flags_all, drop_ge by lia. constructor.
  - destruct (lookup_lt_is_Some_2 pages i) as [p Hp]; [lia|].
    destruct (Hlazy i p Hp) as (next & Hnext & Hhit & Hmiss & Hsize).
    rewrite (drop_S _ _ _ Hp), (drop_miss_flags _ _ _ _ Hp).
    rewrite count_true_cons.
    specialize (IH (S i)). rewrite (frames_before_S _ _ _ Hnext) in IH.
    destruct (decide (p ∈ frames_before movs i)) as [Hin|Hout].
    + rewrite bool_decide_eq_false_2 by (by intros ?). simpl.
      apply sched_hit; [set_solver|]. rewrite <-(Hhit Hin).
      apply IH. lia.
    + rewrite bool_decide_eq_true_2 by done. simpl.
      destruct (Hmiss Hout) as [Hsub Hp'].
      apply (sched_miss frames _ (list_to_set next));
        [set_solver | done | set_solver | done |].
      apply IH. lia.
Qed.

Lemma good_size frames (m : list Page) :
  good frames m → (Z.of_nat (size (list_to_set m : gset Page)) ≤ frames)%Z.
Proof. intros [Hnd Hlen]. by rewrite size_list_to_set. Qed.

Lemma fifo_trans_lazy frames p prev next :
  good frames next → fifo_trans frames p prev next →
  lazy_step frames p prev next.
Proof.
  intros Hg [[Hin ->]|[(Hout & _ & ->)|(Hout & _ & ->)]];
    (split_and!; [ | | by apply good_size]); try done.
  - intros _. split; set_solver.
  - intros _. split; [|set_solver]. destruct prev; set_solver.
Qed.

Lemma lru_trans_lazy pages frames i p prev next :
  good frames next → lru_trans pages frames i p prev next →
  lazy_step frames p prev next.
Proof.
  intros Hg [[Hin Hmove]|[(Hout & _ & ->)|(Hout & _ & Hev)]];
    (split_and!; [ | | by apply good_size]); try done.
  - intros _. destruct Hmove as (l1 & l2 & -> & ->).
    apply set_eq. set_solver.
  - intros _. split; set_solver.
  - intros _. destruct Hev as (q & rest & jq & -> & -> & _).
    split; set_solver.
Qed.

(** The victim chosen by Optimal is used no sooner than any other
    resident page. *)
Lemma optimal_victim_farthest (prev l1 : list Page) q fut :
  q ∈ prev →
  ((∃ r, r ∈ prev ∧ (r ∉ fut)) → (q ∉ fut) ∧ ∀ r, r ∈ l1 → r ∈ fut) →
  ((∀ r, r ∈ prev → r ∈ fut) →
   ∀ r, r ∈ prev → next_use r fut ≤ next_use q fut) →
  ∀ r, r ∈ prev → next_use r fut ≤ next_use q fut.
Proof.
  intros Hq Hnever Hfar r Hr.
  destruct (decide (Forall (λ x, x ∈ fut) prev)) as [Hall|Hsome].
  - rewrite Forall_forall in Hall. by apply Hfar.
  - apply not_Forall_Exists in Hsome; [|apply _].
    apply Exists_exists in Hsome as (z & Hz & Hzf).
    destruct Hnever as [Hqf _]; [by exists z|].
    rewrite (next_use_absent q fut Hqf). apply next_use_le_length.
Qed.

(** Evicting the page used farthest ahead is at least as good as any
    other way of serving the miss. *)
Lemma optimal_choice_dominates frames (l1 l2 : list Page) q p fut C n :
  NoDup (l1 ++ q :: l2) → p ∉ l1 ++ q :: l2 →
  (frames ≤ Z.of_nat (length (l1 ++ q :: l2)))%Z →
  (∀ r, r ∈ l1 ++ q :: l2 → next_use r fut ≤ next_use q fut) →
  C ⊆ list_to_set (l1 ++ q :: l2) ∪ {[p]} → p ∈ C →
  (Z.of_nat (size C) ≤ frames)%Z →
  sched frames C fut n →
  ∃ m, m ≤ n ∧ sched frames (list_to_set (l1 ++ l2 ++ [p])) fut m.
Proof.
  intros Hnd Hp Hfull Hfar Hsub HpC Hsize Hs.
  set (P := list_to_set (l1 ++ q :: l2) : gset Page) in *.
  assert (q ∉ l1 ++ l2) as Hq.
  { apply NoDup_app in Hnd as (_ & Hdis & [Hql2 _]%NoDup_cons).
    intros [?|?]%elem_of_app; [|done]. apply (Hdis q); set_solver. }
  assert (size P = length (l1 ++ q :: l2)) as HsizeP
    by by apply size_list_to_set.
  destruct (set_choose_or_empty (P ∖ C)) as [[q' Hq']|Hempty].
  - apply elem_of_difference in Hq' as [Hq'P Hq'C].
    destruct (sched_mono frames (P ∖ {[q']} ∪ {[p]}) C fut n)
      as (m1 & Hm1 & Hs1); [set_solver | done |].
    destruct (decide (q' = q)) as [->|Hne].
    + exists m1. split; [done|].
      replace (list_to_set (l1 ++ l2 ++ [p]) : gset Page)
        with (P ∖ {[q]} ∪ {[p]}); [done|].
      apply set_eq. intros z. unfold P.
      destruct (decide (z = q)) as [->|]; set_solver.
    + set (K := P ∖ {[q]} ∖ {[q']} ∪ {[p]}).
      assert (q' ≠ p) by (intros ->; apply Hp; unfold P in *; set_solver).
      assert (q ≠ p) by (intros ->; apply Hp; set_solver).
      destruct (sched_exchange frames K q' q fut m1)
        as (m2 & Hm2 & Hs2).
      * done.
      * unfold K. set_solver.
      * unfold K. set_solver.
      * apply Hfar. unfold P in *. set_solver.
      * replace (K ∪ {[q]}) with (P ∖ {[q']} ∪ {[p]}); [done|].
        apply set_eq. intros z. unfold K, P.
        destruct (decide (z = q)) as [->|]; set_solver.
      * exists m2. split; [lia|].
        replace (list_to_set (l1 ++ l2 ++ [p]) : gset Page)
          with (K ∪ {[q']}); [done|].
        apply set_eq. intros z. unfold K. unfold P in *.
        destruct (decide (z = q')) as [->|]; [set_solver|].
        destruct (decide (z = q)) as [->|]; set_solver.
  - exfalso.
    assert (P ∪ {[p]} ⊆ C) as Hall.
    { intros z [Hz| ->%elem_of_singleton]%elem_of_union; [|done].
      destruct (decide (z ∈ C)); [done|]. set_solver. }
    apply subseteq_size in Hall.
    assert (P ## ({[p]} : gset Page)) as Hd by (unfold P; set_solver).
    rewrite (size_union _ _ Hd), size_singleton in Hall. lia.
Qed.

(** Optimal takes no more faults than any demand-paging schedule. *)
Lemma optimal_trace_le frames pages st :
  run_inv (optimal_trans pages frames) frames pages (length pages) st →
  ∀ d i, i + d = length pages →
  ∀ n, sched frames (list_to_set (frames_before (movements st) i))
         (drop i pages) n →
       count_true (drop i (miss_flags pages (movements st))) ≤ n.
Proof.
  intros (_ & _ & _ & _ & Hgood & Htr) d.
  induction d as [|d IH]; intros i Hi n Hs.
  - rewrite drop_miss_flags_all by lia. lia.
  - destruct (lookup_lt_is_Some_2 pages i) as [p Hp]; [lia|].
    destruct (Htr i p) as (next & Hnext & HT); [lia | done |].
    rewrite (drop_S _ _ _ Hp) in Hs.
    rewrite (drop_miss_flags _ _ _ _ Hp), count_true_cons.
    specialize (IH (S i)). rewrite (frames_before_S _ _ _ Hnext) in IH.
    destruct (Hgood i) as [Hnd Hlen]; [lia|].
    set (prev := frames_before (movements st) i) in *.
    inversion Hs as [|B p' fut' n' Hin Hs'|B B' p' fut' n' Hout Hsub Hp' Hsz Hs'];
      subst.
    + apply elem_of_list_to_set in Hin.
      rewrite bool_decide_eq_false_2 by (by intros ?). simpl.
      destruct HT as [[_ ->]|[(Hout & _)|(Hout & _)]]; [|done..].
      apply IH; [lia | done].
    + rewrite elem_of_list_to_set in Hout.
      rewrite bool_decide_eq_true_2 by done. simpl.
      assert (∃ m, m ≤ n' ∧ sched frames (list_to_set next)
                               (drop (S i) pages) m)
        as (m & Hm & Hsm).
      { destruct HT as [[Hin _]|[(_ & _ & ->)|(_ & Hfull & Hev)]];
          [done | | ].
        - apply (sched_mono frames _ B'); [set_solver | done].
        - destruct Hev as (q & l1 & l2 & Hprev & -> & Hnever & Hfar).
          rewrite Hprev in Hnd, Hout, Hfull, Hsub.
          apply (optimal_choice_dominates frames l1 l2 q p
                   (drop (S i) pages) B' n'); try done.
          rewrite <-Hprev.
          apply (optimal_victim_farthest prev l1); [|done..].
          rewrite Hprev. set_solver. }
      specialize (IH ltac:(lia) m Hsm). lia.
Qed.
End belady.

Section comparison.
Context {Page : Type} `{Countable Page}.
Context {Time : Type} (time_sub : Time → Time → Time).
Implicit Types (pages : list Page) (clock : nat → Time).

Lemma run_inv_lazy T frames pages st :
  (∀ i p prev next, good frames next → T i p prev next →
                    lazy_step frames p prev next) →
  run_inv T frames pages (length pages) st →
  sched frames ∅ pages (page_faults st).
Proof.
  intros Hlazy Hinv.
  destruct (run_inv_final _ _ _ _ Hinv) as (-> & _).
  destruct Hinv as (_ & _ & _ & _ & Hgood & Htr).
  apply (lazy_trace_sched frames pages (movements st)) with
    (d := length pages) (i := 0); [|done].
  intros i p Hp.
  destruct (Htr i p) as (next & Hnext & HT);
    [by apply lookup_lt_Some in Hp | done |].
  exists next. split; [done|]. apply (Hlazy i); [|done].
  rewrite <-(frames_before_S _ _ _ Hnext). apply Hgood.
  apply lookup_lt_Some in Hp. lia.
Qed.

(** C8: for every trace and every capacity of at least 1, the three
    policies return, and the fault count of Optimal is at most that of
    FIFO and at most that of LRU on the same trace and capacity. *)
Theorem optimal_faults_minimal clock pages frames :
  (1 ≤ frames)%Z →
  ∃ ro rf rl,
    optimal_page_replacement time_sub clock pages frames = Ok ro ∧
    fifo_page_replacement time_sub clock pages frames = Ok rf ∧
    lru_page_replacement time_sub clock pages frames = Ok rl ∧
    report_faults ro ≤ report_faults rf ∧
    report_faults ro ≤ report_faults rl.
Proof.
  intros Hf.
  destruct (optimal_run time_sub clock pages frames Hf)
    as (sto & Hruno & Hinvo).
  destruct (fifo_run time_sub clock pages frames Hf)
    as (stf & Hrunf & Hinvf).
  destruct (lru_run time_sub clock pages frames Hf)
    as (stl & Hrunl & Hinvl).
  eexists _, _, _. split_and!; [done.. | | ].
  - change (page_faults sto ≤ page_faults stf).
    destruct (run_inv_final _ _ _ _ Hinvo) as (-> & _).
    apply (optimal_trace_le frames pages sto Hinvo (length pages) 0);
      [done|].
    apply (run_inv_lazy _ _ _ _ (λ _, fifo_trans_lazy frames) Hinvf).
  - change (page_faults sto ≤ page_faults stl).
    destruct (run_inv_final _ _ _ _ Hinvo) as (-> & _).
    apply (optimal_trace_le frames pages sto Hinvo (length pages) 0);
      [done|].
    apply (run_inv_lazy _ _ _ _ (lru_trans_lazy pages frames) Hinvl).
Qed.

(** Without a free frame to fill or a page to evict, the first reference
    makes each loop raise. *)
Lemma fifo_nonpositive clock pages frames :
  (frames ≤ 0)%Z → pages ≠ [] →
  fifo_page_replacement time_sub clock pages frames = Raise IndexError.
Proof.
  intros Hf Hne. destruct pages as [|p rest]; [done|].
  unfold fifo_page_replacement, fifo_step. simpl.
  by rewrite decide_False by (simpl; lia).
Qed.

Lemma lru_nonpositive clock pages frames :
  (frames ≤ 0)%Z → pages ≠ [] →
  lru_page_replacement time_sub clock pages frames = Raise ValueError.
Proof.
  intros Hf Hne. destruct pages as [|p rest]; [done|].
  unfold lru_page_replacement, lru_step. simpl.
  by rewrite decide_False by (simpl; lia).
Qed.

Lemma optimal_nonpositive clock pages frames :
  (frames ≤ 0)%Z → pages ≠ [] →
  optimal_page_replacement time_sub clock pages frames = Raise ValueError.
Proof.
  intros Hf Hne. destruct pages as [|p rest]; [done|].
  unfold optimal_page_replacement, optimal_step. simpl.
  by rewrite decide_False by (simpl; lia).
Qed.
End comparison.

(** ** The worked traces, and capacities below 1 *)

Section examples.
Context {Time : Type} (time_sub : Time → Time → Time).
Implicit Types (clock : nat → Time).

(** C1, as the code has it: FIFO on [A,B,C,D,A,B,E] with 3 frames takes 7
    faults (every reference misses, the second A and B included, both
    having been evicted before they come back); the frame lists after each
    step are [A], [A,B], [A,B,C], [B,C,D], [C,D,A], [D,A,B], [A,B,E], and
    the final frame list is [A,B,E]. *)
Theorem fifo_example clock :
  fifo_page_replacement time_sub clock
    ["A"; "B"; "C"; "D"; "A"; "B"; "E"] 3 =
  Ok (7, ["A"; "B"; "E"],
      [["A"]; ["A"; "B"]; ["A"; "B"; "C"]; ["B"; "C"; "D"];
       ["C"; "D"; "A"]; ["D"; "A"; "B"]; ["A"; "B"; "E"]],
      time_sub (clock 1) (clock 0), 7).
Proof. reflexivity. Qed.

(** C2, as the code has it: Optimal on [A,B,C,A,B,D,A] with 3 frames
    admits A, B, C (3 faults), hits on A and B, and on the miss for D
    evicts B, the first page of the frame list [A,B,C] that is not
    referenced again (C is not referenced again either, but comes later
    in the list); the frame list after D is [A,C,D], the last A hits, and
    there are 4 faults. *)
Theorem optimal_example clock :
  optimal_page_replacement time_sub clock
    ["A"; "B"; "C"; "A"; "B"; "D"; "A"] 3 =
  Ok (4, ["A"; "C"; "D"],
      [["A"]; ["A"; "B"]; ["A"; "B"; "C"]; ["A"; "B"; "C"];
       ["A"; "B"; "C"]; ["A"; "C"; "D"]; ["A"; "C"; "D"]],
      time_sub (clock 1) (clock 0), 7).
Proof. reflexivity. Qed.

(** C3, as the code has it: the three functions have no check of their
    own on the capacity and no InvalidArgument error. Called with a
    capacity of 0 or less on a trace that is not empty, each raises on
    the first reference: FIFO an IndexError (pop from an empty list), LRU
    a ValueError (min of an empty list), Optimal a ValueError (remove of
    a page that was never chosen). *)
Theorem nonpositive_capacity clock (pages : list string) (frames : Z) :
  (frames ≤ 0)%Z → pages ≠ [] →
  run_algorithm time_sub "FIFO" clock pages frames = Raise IndexError ∧
  run_algorithm time_sub "LRU" clock pages frames = Raise ValueError ∧
  run_algorithm time_sub "Optimal" clock pages frames = Raise ValueError.
Proof.
  intros Hf Hne. split_and!.
  - by apply fifo_nonpositive.
  - by apply lru_nonpositive.
  - by apply optimal_nonpositive.
Qed.
End examples.

(** ** The claims on concrete runs *)

(** The trace of C1 does not take 6 faults. *)
Lemma fifo_example_not_six :
  ¬ ∃ mem movs t its,
      fifo_page_replacement Z.sub Z.of_nat
        ["A"; "B"; "C"; "D"; "A"; "B"; "E"] 3 =
      Ok (6, mem, movs, t, its).
Proof. intros (mem & movs & t & its & Heq). vm_compute in Heq. done. Qed.

(** On the trace of C2 the frames after the miss on D are not {A,B,D}. *)
Lemma optimal_example_not_ABD :
  ¬ ∃ faults mem movs t its m,
      optimal_page_replacement Z.sub Z.of_nat
        ["A"; "B"; "C"; "A"; "B"; "D"; "A"] 3 =
      Ok (faults, mem, movs, t, its) ∧
      movs !! 5 = Some m ∧
      list_to_set m = ({["A"; "B"; "D"]} : gset string).
Proof.
  intros (faults & mem & movs & t & its & m & Heq & Hm & Hset).
  vm_compute in Heq. injection Heq as _ _ <- _ _.
  injection Hm as <-.
  assert ("B" ∈ ({["A"; "B"; "D"]} : gset string)) as HB by set_solver.
  rewrite <-Hset in HB. set_solver.
Qed.

(** With capacity 0 the empty trace is served without any error. *)
Lemma nonpositive_capacity_may_return :
  ¬ ∀ algorithm (pages : list string) (frames : Z),
      algorithm ∈ algorithms → (frames ≤ 0)%Z →
      ∃ e, run_algorithm Z.sub algorithm Z.of_nat pages frames = Raise e.
Proof.
  intros Hall. destruct (Hall "FIFO" [] 0%Z) as [e He];
    [repeat constructor | done | discriminate].
Qed.

Lemma nonpositive_capacity_witness :
  (0 ≤ 0)%Z ∧ ["A"] ≠ [] ∧
  run_algorithm Z.sub "FIFO" Z.of_nat ["A"] 0 = Raise IndexError ∧
  run_algorithm Z.sub "LRU" Z.of_nat ["A"] 0 = Raise ValueError ∧
  run_algorithm Z.sub "Optimal" Z.of_nat ["A"] 0 = Raise ValueError.
Proof.
  split; [lia|]. split; [discriminate|].
  apply (nonpositive_capacity Z.sub Z.of_nat ["A"] 0); [lia | discriminate].
Defined.

Lemma fault_count_counts_misses_witness :
  "LRU" ∈ algorithms ∧ (1 ≤ 2)%Z ∧
  ∃ faults mem movs t its,
    run_algorithm Z.sub "LRU" Z.of_nat ["A"; "B"; "C"; "A"] 2 =
      Ok (faults, mem, movs, t, its) ∧
    faults = count_true (miss_flags ["A"; "B"; "C"; "A"] movs).
Proof.
  split; [repeat constructor|]. split; [lia|].
  destruct (fault_count_counts_misses Z.sub "LRU" Z.of_nat
              ["A"; "B"; "C"; "A"] 2)
    as (faults & mem & movs & t & its & Hrun & Hfaults & _);
    [repeat constructor | lia |].
  exists faults, mem, movs, t, its. by split.
Defined.

Lemma snapshots_within_capacity_witness :
  "FIFO" ∈ algorithms ∧ (1 ≤ 2)%Z ∧
  ∃ faults mem movs t its,
    run_algorithm Z.sub "FIFO" Z.of_nat ["A"; "B"; "C"; "A"] 2 =
      Ok (faults, mem, movs, t, its) ∧
    length movs = 4 ∧
    ∀ m, m ∈ movs → NoDup m ∧ (0 ≤ Z.of_nat (length m) ≤ 2)%Z.
Proof.
  split; [repeat constructor|]. split; [lia|].
  apply (snapshots_within_capacity Z.sub "FIFO" Z.of_nat
           ["A"; "B"; "C"; "A"] 2); [repeat constructor | lia].
Defined.

Lemma lru_evicts_least_recent_witness :
  (1 ≤ 3)%Z ∧
  lru_page_replacement Z.sub Z.of_nat ["A"; "B"; "C"; "A"; "D"] 3 =
    Ok (4, ["C"; "A"; "D"],
        [["A"]; ["A"; "B"]; ["A"; "B"; "C"]; ["B"; "C"; "A"];
         ["C"; "A"; "D"]], 1%Z, 5).
Proof.
  split; [lia|].
  destruct (lru_evicts_least_recent Z.sub Z.of_nat
              ["A"; "B"; "C"; "A"; "D"] 3) as [_ Hex]; [lia|].
  exact Hex.
Defined.

Lemma optimal_eviction_rule_witness :
  (1 ≤ 3)%Z ∧
  ∃ faults mem movs t its q l1 l2,
    optimal_page_replacement Z.sub Z.of_nat
      ["A"; "B"; "C"; "A"; "B"; "D"; "A"] 3 =
      Ok (faults, mem, movs, t, its) ∧
    frames_before movs 5 = ["A"; "B"; "C"] ∧
    ["A"; "B"; "C"] = l1 ++ q :: l2 ∧
    movs !! 5 = Some (l1 ++ l2 ++ ["D"]) ∧
    (q ∉ ["A"]) ∧ ∀ r, r ∈ l1 → r ∈ ["A"].
Proof.
  split; [lia|].
  destruct (optimal_eviction_rule Z.sub Z.of_nat
              ["A"; "B"; "C"; "A"; "B"; "D"; "A"] 3)
    as [(faults & mem & movs & t & its & Hrun & Hsteps) _]; [lia|].
  assert (movs = [["A"]; ["A"; "B"]; ["A"; "B"; "C"]; ["A"; "B"; "C"];
                  ["A"; "B"; "C"]; ["A"; "C"; "D"]; ["A"; "C"; "D"]])
    as Hmovs by (vm_compute in Hrun; congruence).
  destruct (Hsteps 5 "D" eq_refl) as (m & Hm & _ & Hevict).
  rewrite Hmovs in Hevict. simpl in Hevict.
  destruct Hevict as (q & l1 & l2 & Hprev & -> & Hnever & _);
    [set_solver | lia |].
  destruct Hnever as [Hq Hl1]; [exists "B"; set_solver|].
  exists faults, mem, movs, t, its, q, l1, l2.
  split_and!; [exact Hrun | by rewrite Hmovs | exact Hprev | exact Hm
              | exact Hq | exact Hl1].
Defined.

Lemma optimal_faults_minimal_witness :
  (1 ≤ 3)%Z ∧
  ∃ ro rf rl,
    optimal_page_replacement Z.sub Z.of_nat
      ["A"; "B"; "C"; "D"; "A"; "B"; "E"] 3 = Ok ro ∧
    fifo_page_replacement Z.sub Z.of_nat
      ["A"; "B"; "C"; "D"; "A"; "B"; "E"] 3 = Ok rf ∧
    lru_page_replacement Z.sub Z.of_nat
      ["A"; "B"; "C"; "D"; "A"; "B"; "E"] 3 = Ok rl ∧
    report_faults ro ≤ report_faults rf ∧
    report_faults ro ≤ report_faults rl.
Proof.
  split; [lia|].
  apply (optimal_faults_minimal Z.sub Z.of_nat
           ["A"; "B"; "C"; "D"; "A"; "B"; "E"] 3). lia.
Defined.

Lemma runs_agree_witness :
  "Optimal" ∈ algorithms ∧ (1 ≤ 2)%Z ∧
  ∃ faults mem movs t1 t2 its,
    run_algorithm Z.sub "Optimal" Z.of_nat ["A"; "B"; "C"; "A"] 2 =
      Ok (faults, mem, movs, t1, its) ∧
    run_algorithm Z.sub "Optimal" (λ k, Z.of_nat (7 * k))
      ["A"; "B"; "C"; "A"] 2 =
      Ok (faults, mem, movs, t2, its).
Proof.
  split; [repeat constructor|]. split; [lia|].
  apply (runs_agree Z.sub "Optimal" Z.of_nat (λ k, Z.of_nat (7 * k))
           ["A"; "B"; "C"; "A"] 2); [repeat constructor | lia].
Defined.

Lemma lru_memory_recency_ordered_witness :
  (1 ≤ 3)%Z ∧ 4 ≤ length ["A"; "B"; "C"; "A"; "D"] ∧
  ∃ st idx,
    lru_locals_after ["A"; "B"; "C"; "A"; "D"] 3 4 = Ok (st, idx) ∧
    StronglySorted (recency_lt idx) (physical_memory st).
Proof.
  split; [lia|]. split; [simpl; lia|].
  destruct (lru_memory_recency_ordered ["A"; "B"; "C"; "A"; "D"] 3 4)
    as (st & idx & Hrun & Hsorted & _); [lia | simpl; lia |].
  by exists st, idx.
Defined.

(** Two clocks, two elapsed times: the other four results are the same. *)
Example elapsed_time_depends_on_clock :
  fifo_page_replacement Z.sub Z.of_nat ["A"; "B"] 2 =
    Ok (2, ["A"; "B"], [["A"]; ["A"; "B"]], 1%Z, 2) ∧
  fifo_page_replacement Z.sub (λ k, Z.of_nat (7 * k)) ["A"; "B"] 2 =
    Ok (2, ["A"; "B"], [["A"]; ["A"; "B"]], 7%Z, 2).
Proof. split; reflexivity. Qed.

(** * Further properties of the three policies *)

Section reports.
Context {Page : Type} `{Countable Page}.
Context {Time : Type} (time_sub : Time → Time → Time).
Implicit Types (pages prev next : list Page) (st : sim_state Page).
Implicit Types (p q r : Page).
Implicit Types (clock : nat → Time) (algorithm : string).

Lemma policy_trans_cases algorithm pages frames i p prev next :
  algorithm ∈ algorithms →
  policy_trans algorithm pages frames i p prev next →
  (algorithm = "FIFO" ∧ fifo_trans frames p prev next) ∨
  (algorithm = "LRU" ∧ lru_trans pages frames i p prev next) ∨
  (algorithm = "Optimal" ∧ optimal_trans pages frames i p prev next).
Proof.
  intros [->|[->| ->]]%algorithms_cases HT; [left | right; left | right; right];
    by split.
Qed.

(** The run of a menu algorithm, step by step. *)
Lemma run_algorithm_steps algorithm clock pages frames :
  algorithm ∈ algorithms → (1 ≤ frames)%Z →
  ∃ st,
    run_algorithm time_sub algorithm clock pages frames =
      Ok (make_report time_sub (clock 0) (clock 1) st) ∧
    page_faults st = count_true (miss_flags pages (movements st)) ∧
    length (movements st) = length pages ∧
    iterations st = length pages ∧
    physical_memory st = frames_before (movements st) (length pages) ∧
    ∀ i p, pages !! i = Some p →
      ∃ next,
        movements st !! i = Some next ∧
        good frames (frames_before (movements st) i) ∧
        good frames next ∧
        policy_trans algorithm pages frames i p
          (frames_before (movements st) i) next.
Proof.
  intros Halg Hf.
  destruct (run_algorithm_spec time_sub algorithm clock pages frames)
    as (st & Hrun & _ & Hinv); [done.. |].
  destruct (run_inv_final _ _ _ _ Hinv) as (Hpf & Hlen & Hit & Hmem).
  exists st. split_and!; [done.. |]. intros i p Hp.
  assert (i < length pages) as Hi by by apply lookup_lt_Some in Hp.
  destruct Hinv as (_ & _ & _ & _ & Hgood & Htr).
  destruct (Htr i p Hi Hp) as (next & Hnext & HT).
  exists next. split_and!; [done | apply Hgood; lia | | done].
  rewrite <-(frames_before_S _ _ _ Hnext). apply Hgood. lia.
Qed.

Lemma count_true_le_length (bs : list bool) : count_true bs ≤ length bs.
Proof. apply length_filter. Qed.

(** X1: on the empty trace every algorithm of the menu returns no fault,
    no frame, no snapshot and no iteration, whatever the capacity, zero
    and negative capacities included. *)
Theorem empty_trace_returns algorithm clock (frames : Z) :
  algorithm ∈ algorithms →
  run_algorithm time_sub algorithm clock (@nil Page) frames =
    Ok (0, [], [], time_sub (clock 1) (clock 0), 0).
Proof. by intros [->|[->| ->]]%algorithms_cases. Qed.

(** X2: with a capacity of at least 1, every algorithm of the menu returns
    an iteration count equal to the length of the trace, a final frame
    list equal to the last snapshot (empty when there is none), and the
    difference of the two clock readings as run time. *)
Theorem report_shape algorithm clock pages frames :
  algorithm ∈ algorithms → (1 ≤ frames)%Z →
  ∃ faults mem movs its,
    run_algorithm time_sub algorithm clock pages frames =
      Ok (faults, mem, movs, time_sub (clock 1) (clock 0), its) ∧
    its = length pages ∧
    mem = default [] (last movs).
Proof.
  intros Halg Hf.
  destruct (run_algorithm_steps algorithm clock pages frames Halg Hf)
    as (st & Hrun & _ & Hlen & Hit & Hmem & _).
  exists (page_faults st), (physical_memory st), (movements st),
    (iterations st).
  split_and!; [done.. |]. rewrite Hmem, last_lookup, Hlen.
  destruct (length pages) as [|n] eqn:Hn; [|done].
  by rewrite (nil_length_inv _ Hlen).
Qed.

Lemma fifo_trans_resident frames p prev next :
  fifo_trans frames p prev next →
  p ∈ next ∧ (p ∉ prev → last next = Some p).
Proof.
  intros [[Hin ->]|[(Hout & _ & ->)|(Hout & _ & ->)]];
    (split; [set_solver | intros; try done; apply last_snoc]).
Qed.

Lemma lru_trans_resident pages frames i p prev next :
  lru_trans pages frames i p prev next → last next = Some p.
Proof.
  intros [[Hin (l1 & l2 & _ & ->)]|[(Hout & _ & ->)|(Hout & _ & Hev)]].
  - by rewrite app_assoc, last_snoc.
  - apply last_snoc.
  - destruct Hev as (q & rest & jq & _ & -> & _). apply last_snoc.
Qed.

Lemma optimal_trans_resident pages frames i p prev next :
  optimal_trans pages frames i p prev next →
  p ∈ next ∧ (p ∉ prev → last next = Some p).
Proof.
  intros [[Hin ->]|[(Hout & _ & ->)|(Hout & _ & Hev)]].
  - by split.
  - split; [set_solver | intros; apply last_snoc].
  - destruct Hev as (q & l1 & l2 & _ & -> & _).
    split; [set_solver | intros; by rewrite app_assoc, last_snoc].
Qed.

(** X3: with a capacity of at least 1, under every algorithm of the menu
    the page referenced at a step is resident in the snapshot of that step;
    after a miss it is the last page of the frame list, and under LRU it is
    the last page after a hit as well. *)
Theorem referenced_page_resident algorithm clock pages frames :
  algorithm ∈ algorithms → (1 ≤ frames)%Z →
  ∃ faults mem movs t its,
    run_algorithm time_sub algorithm clock pages frames =
      Ok (faults, mem, movs, t, its) ∧
    ∀ i p, pages !! i = Some p →
      ∃ m, movs !! i = Some m ∧ p ∈ m ∧
           (p ∉ frames_before movs i → last m = Some p) ∧
           (algorithm = "LRU" → last m = Some p).
Proof.
  intros Halg Hf.
  destruct (run_algorithm_steps algorithm clock pages frames Halg Hf)
    as (st & Hrun & _ & _ & _ & _ & Hsteps).
  eexists _, _, _, _, _. split; [exact Hrun|]. intros i p Hp.
  destruct (Hsteps i p Hp) as (next & Hnext & _ & _ & HT).
  exists next. split; [done|].
  apply policy_trans_cases in HT; [|done].
  destruct HT as [[-> HT]|[[-> HT]|[-> HT]]].
  - apply fifo_trans_resident in HT as [? ?]. by split_and!.
  - apply lru_trans_resident in HT.
    split_and!; [|done..]. apply last_Some in HT as [l' ->]. set_solver.
  - apply optimal_trans_resident in HT as [? ?]. by split_and!.
Qed.
Lemma fifo_trans_demand frames p prev next :
  (1 ≤ frames)%Z → fifo_trans frames p prev next →
  demand_step frames p prev next.
Proof.
  intros Hf [[Hin ->]|[(Hout & Hroom & ->)|(Hout & Hfull & ->)]];
    split_and!; try done; try (intros; lia).
  intros _ _. destruct prev as [|q rest]; [simpl in Hfull; lia|].
  by exists q, [], rest.
Qed.

Lemma lru_trans_demand pages frames i p prev next :
  lru_trans pages frames i p prev next → demand_step frames p prev next.
Proof.
  intros [[Hin Hmove]|[(Hout & Hroom & ->)|(Hout & Hfull & Hev)]];
    split_and!; try done; try (intros; lia).
  - intros _. destruct Hmove as (l1 & l2 & -> & ->).
    apply Permutation_app_head. symmetry. apply Permutation_cons_append.
  - intros _ _. destruct Hev as (q & rest & jq & -> & -> & _).
    by exists q, [], rest.
Qed.

Lemma optimal_trans_demand pages frames i p prev next :
  optimal_trans pages frames i p prev next → demand_step frames p prev next.
Proof.
  intros [[Hin ->]|[(Hout & Hroom & ->)|(Hout & Hfull & Hev)]];
    split_and!; try done; try (intros; lia).
  intros _ _. destruct Hev as (q & l1 & l2 & -> & -> & _).
  by exists q, l1, l2.
Qed.

Lemma policy_trans_demand algorithm pages frames i p prev next :
  algorithm ∈ algorithms → (1 ≤ frames)%Z →
  policy_trans algorithm pages frames i p prev next →
  demand_step frames p prev next.
Proof.
  intros Halg Hf HT. apply policy_trans_cases in HT; [|done].
  destruct HT as [[_ HT]|[[_ HT]|[_ HT]]].
  - by apply fifo_trans_demand.
  - by eapply lru_trans_demand.
  - by eapply optimal_trans_demand.
Qed.

(** X4: with a capacity of at least 1, under every algorithm of the menu a
    hit leaves the same pages in the frame list (possibly in another
    order), a miss with a free frame appends the page to the list, and a
    miss with all frames taken takes exactly one page out of the list and
    appends the new one: nothing is evicted on a hit or while a frame is
    free, and never more than one page at a time. *)
Theorem steps_are_demand_paging algorithm clock pages frames :
  algorithm ∈ algorithms → (1 ≤ frames)%Z →
  ∃ faults mem movs t its,
    run_algorithm time_sub algorithm clock pages frames =
      Ok (faults, mem, movs, t, its) ∧
    ∀ i p, pages !! i = Some p →
      ∃ m, movs !! i = Some m ∧
        let prev := frames_before movs i in
        (p ∈ prev → m ≡ₚ prev) ∧
        (p ∉ prev → (Z.of_nat (length prev) < frames)%Z →
         m = prev ++ [p]) ∧
        (p ∉ prev → (frames ≤ Z.of_nat (length prev))%Z →
         ∃ q l1 l2, prev = l1 ++ q :: l2 ∧ m = l1 ++ l2 ++ [p]).
Proof.
  intros Halg Hf.
  destruct (run_algorithm_steps algorithm clock pages frames Halg Hf)
    as (st & Hrun & _ & _ & _ & _ & Hsteps).
  eexists _, _, _, _, _. split; [exact Hrun|]. intros i p Hp.
  destruct (Hsteps i p Hp) as (next & Hnext & _ & _ & HT).
  exists next. split; [done|].
  by apply (policy_trans_demand algorithm pages frames i).
Qed.

(** X5: with a capacity of at least 1, under FIFO and under Optimal a hit
    leaves the frame list exactly as it was, order included: a repeated
    reference does not move a page. *)
Theorem hit_leaves_frames_unchanged algorithm clock pages frames :
  algorithm = "FIFO" ∨ algorithm = "Optimal" → (1 ≤ frames)%Z →
  ∃ faults mem movs t its,
    run_algorithm time_sub algorithm clock pages frames =
      Ok (faults, mem, movs, t, its) ∧
    ∀ i p, pages !! i = Some p → p ∈ frames_before movs i →
           movs !! i = Some (frames_before movs i).
Proof.
  intros Halg Hf.
  assert (algorithm ∈ algorithms) as Hin
    by (destruct Halg as [-> | ->]; set_solver).
  destruct (run_algorithm_steps algorithm clock pages frames Hin Hf)
    as (st & Hrun & _ & _ & _ & _ & Hsteps).
  eexists _, _, _, _, _. split; [exact Hrun|]. intros i p Hp Hhit.
  destruct (Hsteps i p Hp) as (next & Hnext & _ & _ & HT).
  rewrite Hnext. f_equal.
  destruct Halg as [-> | ->].
  - by destruct HT as [[_ ->]|[(Hout & _)|(Hout & _)]].
  - by destruct HT as [[_ ->]|[(Hout & _)|(Hout & _)]].
Qed.
Lemma loaded_at_stays pages movs n q j :
  loaded_at pages movs n q j → q ∈ frames_before movs (S n) →
  loaded_at pages movs (S n) q j.
Proof.
  intros (Hj & Hq & Hout & Hin) Hnext. split_and!; [lia | done..|].
  intros j' Hj'. destruct (decide (j' = S n)) as [->|]; [done|].
  apply Hin. lia.
Qed.

Lemma loaded_at_new pages movs n p :
  pages !! n = Some p → p ∉ frames_before movs n →
  p ∈ frames_before movs (S n) → loaded_at pages movs (S n) p n.
Proof.
  intros Hp Hout Hin. split_and!; [lia | done..|].
  intros j' Hj'. by replace j' with (S n) by lia.
Qed.

Lemma loaded_at_all_stay pages movs n (l : list Page) (js : list nat) :
  Forall2 (loaded_at pages movs n) l js →
  (∀ q, q ∈ l → q ∈ frames_before movs (S n)) →
  Forall2 (loaded_at pages movs (S n)) l js.
Proof.
  induction 1 as [|q j l js Hq Hrest IH]; intros Hin; constructor.
  - apply loaded_at_stays; [done|]. apply Hin. set_solver.
  - apply IH. intros; apply Hin. set_solver.
Qed.

Lemma loaded_at_before pages movs n (l : list Page) (js : list nat) :
  Forall2 (loaded_at pages movs n) l js → Forall (λ j, j < n) js.
Proof. induction 1 as [|q j l js [Hj _] _ IH]; by constructor. Qed.

Lemma sorted_lt_snoc (js : list nat) n :
  StronglySorted lt js → Forall (λ j, j < n) js →
  StronglySorted lt (js ++ [n]).
Proof.
  intros Hs Hlt. apply StronglySorted_app_2; [|done|repeat constructor].
  rewrite Forall_forall in Hlt.
  intros j n' Hj ->%list_elem_of_singleton. by apply Hlt.
Qed.

(** Under FIFO the frame list is in the order in which its pages were
    brought in. *)
Lemma fifo_arrival_order frames pages movs n :
  (1 ≤ frames)%Z → n ≤ length pages →
  (∀ i p, pages !! i = Some p →
     ∃ next, movs !! i = Some next ∧
             fifo_trans frames p (frames_before movs i) next) →
  ∃ js, Forall2 (loaded_at pages movs n) (frames_before movs n) js ∧
        StronglySorted lt js.
Proof.
  intros Hf Hn Hsteps. induction n as [|n IH].
  - exists []. split; constructor.
  - destruct IH as (js & Hjs & Hsorted); [lia|].
    destruct (lookup_lt_is_Some_2 pages n) as [p Hp]; [lia|].
    destruct (Hsteps n p Hp) as (next & Hnext & HT).
    pose proof (frames_before_S _ _ _ Hnext) as HS.
    pose proof (loaded_at_before _ _ _ _ _ Hjs) as Hlt.
    destruct HT as [[Hin ->]|[(Hout & Hroom & ->)|(Hout & Hfull & ->)]].
    + exists js. split; [|done]. rewrite HS.
      apply loaded_at_all_stay; [done|]. intros q Hq. by rewrite HS.
    + exists (js ++ [n]). split; [|by apply sorted_lt_snoc].
      rewrite HS. apply Forall2_app.
      * apply loaded_at_all_stay; [done|]. intros q Hq. rewrite HS.
        set_solver.
      * constructor; [|constructor]. apply loaded_at_new; [done.. |].
        rewrite HS. set_solver.
    + destruct (frames_before movs n) as [|q rest] eqn:Hprev;
        [simpl in Hfull; lia|].
      apply Forall2_cons_inv_l in Hjs as (jq & jrest & Hq & Hrest & ->).
      apply StronglySorted_cons in Hsorted as [_ Hsorted].
      apply Forall_cons in Hlt as [_ Hlt].
      exists (jrest ++ [n]). split; [|by apply sorted_lt_snoc].
      rewrite HS. simpl. apply Forall2_app.
      * apply loaded_at_all_stay; [done|]. intros r Hr. rewrite HS.
        set_solver.
      * constructor; [|constructor].
        apply loaded_at_new; [done | by rewrite Hprev |].
        rewrite HS. set_solver.
Qed.

(** X6: under FIFO with a capacity of at least 1, every step leaves a
    snapshot that holds the page referenced, and a miss with all frames
    taken removes the head of the frame list and appends the new page; the
    page removed is the oldest one: it was brought in by an earlier miss
    than every other resident page and had stayed resident since. A hit
    does not make a page younger: on [A,B,A,C] with 2 frames the miss on C
    evicts A, although A was referenced after B. *)
Theorem fifo_evicts_oldest clock pages frames :
  (1 ≤ frames)%Z →
  (∃ faults mem movs t its,
     fifo_page_replacement time_sub clock pages frames =
       Ok (faults, mem, movs, t, its) ∧
     ∀ i p, pages !! i = Some p →
       ∃ m, movs !! i = Some m ∧ p ∈ m ∧
         (p ∉ frames_before movs i →
          (frames ≤ Z.of_nat (length (frames_before movs i)))%Z →
          ∃ q rest jq,
            frames_before movs i = q :: rest ∧
            m = rest ++ [p] ∧
            loaded_at pages movs i q jq ∧
            ∀ r, r ∈ rest → ∃ jr, loaded_at pages movs i r jr ∧ jq < jr)) ∧
  fifo_page_replacement time_sub clock ["A"; "B"; "A"; "C"] 2 =
    Ok (3, ["B"; "C"], [["A"]; ["A"; "B"]; ["A"; "B"]; ["B"; "C"]],
        time_sub (clock 1) (clock 0), 4).
Proof.
  intros Hf. split; [|reflexivity].
  destruct (run_algorithm_steps "FIFO" clock pages frames)
    as (st & Hrun & _ & _ & _ & _ & Hsteps); [set_solver | done |].
  eexists _, _, _, _, _. split; [exact Hrun|]. intros i p Hp.
  destruct (Hsteps i p Hp) as (next & Hnext & _ & _ & HT).
  exists next. split; [done|].
  change (fifo_trans frames p (frames_before (movements st) i) next) in HT.
  split; [by apply fifo_trans_resident in HT as [? _]|].
  intros Hmiss Hfull.
  destruct (fifo_arrival_order frames pages (movements st) i Hf)
    as (js & Hjs & Hsorted).
  { apply lookup_lt_Some in Hp. lia. }
  { intros k x Hx. destruct (Hsteps k x Hx) as (nx & ? & _ & _ & ?). eauto. }
  destruct HT as [[Hin _]|[(_ & Hroom & _)|(_ & _ & ->)]]; [done | lia |].
  destruct (frames_before (movements st) i) as [|q rest] eqn:Hprev;
    [simpl in Hfull; lia|].
  apply Forall2_cons_inv_l in Hjs as (jq & jrest & Hq & Hrest & ->).
  apply StronglySorted_cons in Hsorted as [Hjq _].
  exists q, rest, jq. split_and!; [done.. |]. intros r Hr.
  apply list_elem_of_lookup in Hr as [k Hk].
  destruct (Forall2_lookup_l _ _ _ _ _ Hrest Hk) as (jr & Hjr & Hload).
  exists jr. split; [done|]. rewrite Forall_forall in Hjq.
  apply Hjq. by eapply list_elem_of_lookup_2.
Qed.

Lemma count_true_take_le (bs : list bool) n :
  count_true (take n bs) ≤ count_true bs.
Proof.
  rewrite <-(take_drop n bs) at 2. rewrite count_true_app. lia.
Qed.

(** Every page resident before step [n] was referenced before it, and
    every page referenced before it cost a fault. *)
Lemma distinct_pages_faulted frames pages movs n :
  n ≤ length pages →
  (∀ i p, pages !! i = Some p →
     ∃ next, movs !! i = Some next ∧
             demand_step frames p (frames_before movs i) next) →
  (∀ x, x ∈ frames_before movs n → x ∈ take n pages) ∧
  size (list_to_set (take n pages) : gset Page) ≤
    count_true (take n (miss_flags pages movs)).
Proof.
  intros Hn Hsteps. induction n as [|n IH].
  - split; [set_solver|]. by rewrite !take_0, list_to_set_nil, size_empty.
  - destruct IH as [Hseen Hcount]; [lia|].
    destruct (lookup_lt_is_Some_2 pages n) as [p Hp]; [lia|].
    destruct (Hsteps n p Hp) as (next & Hnext & Hhit & Hroom & Hfull).
    rewrite (frames_before_S _ _ _ Hnext), (take_S_r _ _ _ Hp).
    rewrite (count_true_take_S _ n
      (bool_decide (p ∉ frames_before movs n)));
      [|by rewrite miss_flags_lookup, Hp].
    rewrite list_to_set_app_L, list_to_set_singleton.
    destruct (decide (p ∈ frames_before movs n)) as [Hin|Hout].
    + split.
      * intros x Hx. rewrite (Hhit Hin) in Hx. set_solver.
      * replace (list_to_set (take n pages) ∪ {[p]} : gset Page)
          with (list_to_set (take n pages) : gset Page); [lia|].
        specialize (Hseen p Hin). set_solver.
    + rewrite bool_decide_eq_true_2 by done. split.
      * intros x Hx.
        destruct (decide (Z.of_nat (length (frames_before movs n))
                          < frames)%Z) as [Hlt|Hge].
        -- rewrite (Hroom Hout Hlt) in Hx. set_solver.
        -- destruct (Hfull Hout) as (q & l1 & l2 & Hprev & ->); [lia|].
           rewrite Hprev in Hseen. set_solver.
      * rewrite (size_union_alt (C:=gset Page)).
        assert (size ({[p]} ∖ list_to_set (take n pages) : gset Page) ≤ 1)
          as Hone; [|simpl; lia].
        rewrite <-(size_singleton (C:=gset Page) p).
        apply subseteq_size. set_solver.
Qed.

(** X7: with a capacity of at least 1, under every algorithm of the menu
    the fault count is at least the number of distinct pages of the trace
    (the first reference to a page always misses) and at most the length
    of the trace. *)
Theorem fault_count_bounds algorithm clock pages frames :
  algorithm ∈ algorithms → (1 ≤ frames)%Z →
  ∃ faults mem movs t its,
    run_algorithm time_sub algorithm clock pages frames =
      Ok (faults, mem, movs, t, its) ∧
    size (list_to_set pages : gset Page) ≤ faults ∧
    faults ≤ length pages.
Proof.
  intros Halg Hf.
  destruct (run_algorithm_steps algorithm clock pages frames Halg Hf)
    as (st & Hrun & Hpf & _ & _ & _ & Hsteps).
  eexists _, _, _, _, _. split; [exact Hrun|]. rewrite Hpf. split.
  - destruct (distinct_pages_faulted frames pages (movements st)
                (length pages)) as [_ Hcount]; [done | |].
    { intros i p Hp. destruct (Hsteps i p Hp) as (next & ? & _ & _ & HT).
      exists next. split; [done|].
      by apply (policy_trans_demand algorithm pages frames i). }
    rewrite firstn_all in Hcount. etrans; [exact Hcount|].
    apply count_true_take_le.
  - etrans; [apply count_true_le_length|]. by rewrite length_miss_flags.
Qed.
(** With a frame for every distinct page nothing is ever evicted. *)
Lemma no_eviction_needed frames pages movs n :
  n ≤ length pages →
  (Z.of_nat (size (list_to_set pages : gset Page)) ≤ frames)%Z →
  (∀ i p, pages !! i = Some p →
     ∃ next, movs !! i = Some next ∧ NoDup (frames_before movs i) ∧
             demand_step frames p (frames_before movs i) next) →
  (∀ x, x ∈ frames_before movs n ↔ x ∈ take n pages) ∧
  count_true (take n (miss_flags pages movs)) =
    size (list_to_set (take n pages) : gset Page).
Proof.
  intros Hn Hfit Hsteps. induction n as [|n IH].
  - split; [set_solver|]. by rewrite !take_0, list_to_set_nil, size_empty.
  - destruct IH as [Hseen Hcount]; [lia|].
    destruct (lookup_lt_is_Some_2 pages n) as [p Hp]; [lia|].
    destruct (Hsteps n p Hp) as (next & Hnext & Hnd & Hhit & Hroom & _).
    rewrite (frames_before_S _ _ _ Hnext), (take_S_r _ _ _ Hp).
    rewrite (count_true_take_S _ n
      (bool_decide (p ∉ frames_before movs n)));
      [|by rewrite miss_flags_lookup, Hp].
    rewrite list_to_set_app_L, list_to_set_singleton, Hcount.
    destruct (decide (p ∈ frames_before movs n)) as [Hin|Hout].
    + rewrite bool_decide_eq_false_2 by (by intros ?). split.
      * intros x. rewrite (Hhit Hin), Hseen.
        apply Hseen in Hin. set_solver.
      * replace (list_to_set (take n pages) ∪ {[p]} : gset Page)
          with (list_to_set (take n pages) : gset Page); [lia|].
        apply Hseen in Hin. set_solver.
    + rewrite bool_decide_eq_true_2 by done.
      assert (p ∉ take n pages) as Hnew by (by rewrite <-Hseen).
      assert (list_to_set (take n pages) ## ({[p]} : gset Page)) as Hdis
        by set_solver.
      assert (size (list_to_set (take n pages) ∪ {[p]} : gset Page) =
              size (list_to_set (take n pages) : gset Page) + 1) as Hsize
        by by rewrite (size_union _ _ Hdis), size_singleton.
      assert (Z.of_nat (length (frames_before movs n)) < frames)%Z as Hlt.
      { rewrite <-(size_list_to_set (C:=gset Page)) by done.
        replace (list_to_set (frames_before movs n) : gset Page)
          with (list_to_set (take n pages) : gset Page)
          by (apply set_eq; intros x; rewrite !elem_of_list_to_set;
              by rewrite Hseen).
        assert (size (list_to_set (take n pages) ∪ {[p]} : gset Page) ≤
                size (list_to_set pages : gset Page)); [|lia].
        apply subseteq_size. intros x.
        rewrite elem_of_union, !elem_of_list_to_set, elem_of_singleton.
        intros [Hx | ->]; [by apply (subseteq_take n)|].
        by eapply list_elem_of_lookup_2. }
      rewrite (Hroom Hout Hlt). split; [|lia].
      intros x. rewrite !elem_of_app, Hseen. done.
Qed.

Lemma run_algorithm_enough_frames algorithm clock pages frames :
  algorithm ∈ algorithms → (1 ≤ frames)%Z →
  (Z.of_nat (size (list_to_set pages : gset Page)) ≤ frames)%Z →
  ∃ st,
    run_algorithm time_sub algorithm clock pages frames =
      Ok (make_report time_sub (clock 0) (clock 1) st) ∧
    page_faults st = size (list_to_set pages : gset Page) ∧
    ∀ x, x ∈ physical_memory st ↔ x ∈ pages.
Proof.
  intros Halg Hf Hfit.
  destruct (run_algorithm_steps algorithm clock pages frames Halg Hf)
    as (st & Hrun & Hpf & _ & _ & Hmem & Hsteps).
  exists st. split; [exact Hrun|].
  destruct (no_eviction_needed frames pages (movements st) (length pages))
    as [Hseen Hcount]; [done.. | |].
  { intros i p Hp.
    destruct (Hsteps i p Hp) as (next & ? & [Hnd _] & _ & HT).
    exists next. split_and!; [done.. |].
    by apply (policy_trans_demand algorithm pages frames i). }
  rewrite firstn_all in Hseen, Hcount.
  rewrite firstn_all2 in Hcount by (by rewrite length_miss_flags).
  split; [by rewrite Hpf | by rewrite Hmem].
Qed.

(** X8: with a capacity of at least 1 that is also at least the number of
    distinct pages of the trace, every algorithm of the menu takes exactly
    one fault per distinct page, and the final frame list holds exactly
    the pages of the trace: nothing is ever evicted, so the three
    algorithms take the same number of faults. *)
Theorem enough_frames_one_fault_per_page algorithm clock pages frames :
  algorithm ∈ algorithms → (1 ≤ frames)%Z →
  (Z.of_nat (size (list_to_set pages : gset Page)) ≤ frames)%Z →
  ∃ faults mem movs t its,
    run_algorithm time_sub algorithm clock pages frames =
      Ok (faults, mem, movs, t, its) ∧
    faults = size (list_to_set pages : gset Page) ∧
    ∀ x, x ∈ mem ↔ x ∈ pages.
Proof.
  intros Halg Hf Hfit.
  destruct (run_algorithm_enough_frames algorithm clock pages frames)
    as (st & Hrun & Hpf & Hmem); [done.. |].
  eexists _, _, _, _, _. split; [exact Hrun|]. by split.
Qed.

(** Every page of a snapshot is a page of the trace. *)
Lemma snapshot_pages_referenced algorithm clock pages frames st :
  algorithm ∈ algorithms → (1 ≤ frames)%Z →
  run_algorithm time_sub algorithm clock pages frames =
    Ok (make_report time_sub (clock 0) (clock 1) st) →
  ∀ m x, m ∈ movements st → x ∈ m → x ∈ pages.
Proof.
  intros Halg Hf Hrun m x (i & Hm)%list_elem_of_lookup Hx.
  destruct (run_algorithm_steps algorithm clock pages frames Halg Hf)
    as (st' & Hrun' & _ & Hlen & _ & _ & Hsteps).
  rewrite Hrun in Hrun'. injection Hrun' as _ _ Hmovs _.
  rewrite <-Hmovs in *. clear Hmovs.
  destruct (distinct_pages_faulted frames pages (movements st) (S i))
    as [Hseen _].
  { apply lookup_lt_Some in Hm. lia. }
  { intros k p Hp. destruct (Hsteps k p Hp) as (next & ? & _ & _ & HT).
    exists next. split; [done|].
    by apply (policy_trans_demand algorithm pages frames k). }
  apply (subseteq_take (S i)), Hseen.
  by rewrite (frames_before_S _ _ _ Hm).
Qed.
End reports.

(** ** More frames, longer traces *)

Section capacity.
Context {Page : Type} `{Countable Page}.
Context {Time : Type} (time_sub : Time → Time → Time).
Implicit Types (pages prev next : list Page) (st : sim_state Page).
Implicit Types (p q r : Page) (clock : nat → Time) (algorithm : string).

Lemma optimal_trans_lazy pages frames i p prev next :
  good frames next → optimal_trans pages frames i p prev next →
  lazy_step frames p prev next.
Proof.
  intros Hg [[Hin ->]|[(Hout & _ & ->)|(Hout & _ & Hev)]];
    (split_and!; [ | | by apply good_size]); try done.
  - intros _. split; set_solver.
  - intros _. destruct Hev as (q & l1 & l2 & -> & -> & _).
    split; set_solver.
Qed.

Lemma sched_more_frames frames frames' (C : gset Page) fut n :
  (frames ≤ frames')%Z → sched frames C fut n → sched frames' C fut n.
Proof.
  intros Hle. induction 1 as [C|C p fut n Hp _ IH|C C' p fut n ? ? ? ? _ IH].
  - constructor.
  - by apply sched_hit.
  - apply (sched_miss frames' C C'); [done.. | lia | done].
Qed.

(** X9: with a capacity of at least 1, the fault count of Optimal is at
    most the fault count of any way of serving the trace from empty frames
    that loads a page only when it is referenced and absent and keeps at
    most [frames] pages resident. *)
Theorem optimal_beats_every_schedule clock pages frames n :
  (1 ≤ frames)%Z → sched frames ∅ pages n →
  ∃ faults mem movs t its,
    optimal_page_replacement time_sub clock pages frames =
      Ok (faults, mem, movs, t, its) ∧
    faults ≤ n.
Proof.
  intros Hf Hs.
  destruct (optimal_run time_sub clock pages frames Hf)
    as (st & Hrun & Hinv).
  eexists _, _, _, _, _. split; [exact Hrun|].
  destruct (run_inv_final _ _ _ _ Hinv) as (-> & _).
  by apply (optimal_trace_le frames pages st Hinv (length pages) 0).
Qed.

(** X10: giving Optimal more frames never costs more faults: for
    capacities [1 ≤ frames ≤ frames'] the fault count with [frames'] frames
    is at most the fault count with [frames] frames. *)
Theorem optimal_monotone_in_capacity clock pages frames frames' :
  (1 ≤ frames)%Z → (frames ≤ frames')%Z →
  ∃ ro ro' : report Page Time,
    optimal_page_replacement time_sub clock pages frames = Ok ro ∧
    optimal_page_replacement time_sub clock pages frames' = Ok ro' ∧
    report_faults ro' ≤ report_faults ro.
Proof.
  intros Hf Hle.
  destruct (optimal_run time_sub clock pages frames Hf)
    as (st & Hrun & Hinv).
  destruct (optimal_run time_sub clock pages frames')
    as (st' & Hrun' & Hinv'); [lia|].
  eexists _, _. split_and!; [done.. |].
  change (page_faults st' ≤ page_faults st).
  destruct (run_inv_final _ _ _ _ Hinv') as (-> & _).
  apply (optimal_trace_le frames' pages st' Hinv' (length pages) 0); [done|].
  apply (sched_more_frames frames); [done|].
  apply (run_inv_lazy _ _ _ _ (optimal_trans_lazy pages frames) Hinv).
Qed.

Lemma filter_ne_absent p (l : list Page) :
  p ∉ l → filter (λ x, x ≠ p) l = l.
Proof.
  induction l as [|x l IH]; intros Hp; [done|].
  rewrite filter_cons_True by set_solver. f_equal. apply IH. set_solver.
Qed.

Lemma filter_ne_middle p (l1 l2 : list Page) :
  p ∉ l1 → p ∉ l2 → filter (λ x, x ≠ p) (l1 ++ p :: l2) = l1 ++ l2.
Proof.
  intros H1 H2. rewrite filter_app, filter_cons_False by (by intros ?).
  by rewrite !filter_ne_absent.
Qed.

Lemma lru_stack_snoc pages p :
  lru_stack (pages ++ [p]) = filter (λ x, x ≠ p) (lru_stack pages) ++ [p].
Proof. unfold lru_stack. by rewrite fold_left_app. Qed.

Lemma lru_stack_NoDup pages : NoDup (lru_stack pages).
Proof.
  induction pages as [|p pages IH] using rev_ind; [constructor|].
  rewrite lru_stack_snoc. apply NoDup_app. split_and!.
  - by apply NoDup_filter.
  - intros x [Hx _]%list_elem_of_filter ->%list_elem_of_singleton. done.
  - apply NoDup_singleton.
Qed.

(** Under LRU the frame list is the tail of the list of all pages seen so
    far, most recently used last. *)
Lemma lru_frames_suffix frames pages movs n :
  n ≤ length pages →
  (∀ i p, pages !! i = Some p →
     ∃ next, movs !! i = Some next ∧
             good frames (frames_before movs i) ∧
             lru_trans pages frames i p (frames_before movs i) next) →
  ∃ pre, lru_stack (take n pages) = pre ++ frames_before movs n ∧
         (pre = [] ∨ Z.of_nat (length (frames_before movs n)) = frames).
Proof.
  intros Hn Hsteps. induction n as [|n IH].
  - exists []. split; [done | by left].
  - destruct IH as (pre & Hstack & Hpre); [lia|].
    destruct (lookup_lt_is_Some_2 pages n) as [p Hp]; [lia|].
    destruct (Hsteps n p Hp) as (next & Hnext & [_ Hlen] & HT).
    pose proof (lru_stack_NoDup (take n pages)) as Hnd.
    rewrite (frames_before_S _ _ _ Hnext), (take_S_r _ _ _ Hp).
    rewrite lru_stack_snoc, Hstack. rewrite Hstack in Hnd.
    destruct HT as [[Hin Hmove]|[(Hout & Hroom & ->)|(Hout & Hfull & Hev)]].
    + destruct Hmove as (l1 & l2 & Hprev & ->). rewrite Hprev in *.
      exists pre. split.
      * rewrite app_assoc, filter_ne_middle; [by rewrite <-!app_assoc | | ].
        -- rewrite app_assoc in Hnd.
           apply NoDup_app in Hnd as (_ & Hdis & _). intros Hx.
           apply (Hdis p Hx). set_solver.
        -- apply NoDup_app in Hnd as (_ & _ & Hnd).
           apply NoDup_app in Hnd as (_ & _ & [? _]%NoDup_cons). done.
      * destruct Hpre as [?|Hk]; [by left | right].
        rewrite !length_app in *. simpl in *. lia.
    + destruct Hpre as [->|?]; [|lia]. exists []. simpl.
      split; [|by left]. by rewrite filter_ne_absent.
    + destruct Hev as (q & rest & jq & Hprev & -> & _). rewrite Hprev in *.
      exists (filter (λ x, x ≠ p) pre ++ [q]). split.
      * rewrite filter_app, (filter_ne_absent p (q :: rest)) by done.
        by rewrite <-!app_assoc.
      * right. rewrite length_app in *. simpl in *. lia.
Qed.

Lemma count_true_mono (bs bs' : list bool) :
  Forall2 (λ b b', b = true → b' = true) bs bs' →
  count_true bs ≤ count_true bs'.
Proof.
  induction 1 as [|b b' bs bs' Hb _ IH]; [done|].
  rewrite !count_true_cons. destruct b, b'; [lia | | lia | lia].
  by specialize (Hb eq_refl).
Qed.

(** X11: LRU has no anomaly: for capacities [1 ≤ frames ≤ frames'], at
    every step the frame list with [frames] frames is the tail of the frame
    list with [frames'] frames, so every hit with fewer frames is a hit with
    more, and the fault count with [frames'] frames is at most the fault
    count with [frames] frames. *)
Theorem lru_monotone_in_capacity clock pages frames frames' :
  (1 ≤ frames)%Z → (frames ≤ frames')%Z →
  ∃ faults mem movs t its faults' mem' movs' t' its',
    lru_page_replacement time_sub clock pages frames =
      Ok (faults, mem, movs, t, its) ∧
    lru_page_replacement time_sub clock pages frames' =
      Ok (faults', mem', movs', t', its') ∧
    faults' ≤ faults ∧
    ∀ i m m', movs !! i = Some m → movs' !! i = Some m' →
              m `suffix_of` m'.
Proof.
  intros Hf Hle.
  destruct (run_algorithm_steps time_sub "LRU" clock pages frames)
    as (st & Hrun & Hpf & Hlen & _ & _ & Hsteps); [set_solver | done |].
  destruct (run_algorithm_steps time_sub "LRU" clock pages frames')
    as (st' & Hrun' & Hpf' & Hlen' & _ & _ & Hsteps'); [set_solver | lia |].
  eexists _, _, _, _, _, _, _, _, _, _.
  split; [exact Hrun|]. split; [exact Hrun'|].
  assert (∀ n, n ≤ length pages →
            frames_before (movements st) n `suffix_of`
            frames_before (movements st') n) as Hsuffix.
  { intros n Hn.
    destruct (lru_frames_suffix frames pages (movements st) n Hn)
      as (pre & Hstack & Hpre).
    { intros i p Hp. destruct (Hsteps i p Hp) as (nx & ? & ? & _ & ?).
      eauto. }
    destruct (lru_frames_suffix frames' pages (movements st') n Hn)
      as (pre' & Hstack' & Hpre').
    { intros i p Hp. destruct (Hsteps' i p Hp) as (nx & ? & ? & _ & ?).
      eauto. }
    assert (Z.of_nat (length (frames_before (movements st) n)) ≤ frames)%Z
      as Hbound.
    { destruct n as [|n]; [simpl; lia|].
      destruct (lookup_lt_is_Some_2 pages n) as [p Hp]; [lia|].
      destruct (Hsteps n p Hp) as (nx & Hnx & _ & [_ Hg] & _).
      by rewrite (frames_before_S _ _ _ Hnx). }
    destruct Hpre' as [-> |Hfull'].
    - simpl in Hstack'. rewrite <-Hstack', Hstack. by exists pre.
    - destruct (suffix_weak_total (frames_before (movements st) n)
                  (frames_before (movements st') n)
                  (lru_stack (take n pages))) as [Hs|Hs].
      + rewrite Hstack. by exists pre.
      + rewrite Hstack'. by exists pre'.
      + done.
      + apply suffix_length_eq in Hs as ->; [done|].
        apply suffix_length in Hs. lia. }
  split.
  - cbn [page_faults]. rewrite Hpf, Hpf'. apply count_true_mono.
    apply Forall2_same_length_lookup_2.
    { by rewrite !length_miss_flags. }
    intros i b b'. rewrite !miss_flags_lookup.
    destruct (pages !! i) as [p|] eqn:Hp; [|done]. simpl.
    intros [= <-] [= <-]. rewrite !bool_decide_eq_true. intros Hout Hin.
    apply Hout. eapply elem_of_suffix; [exact Hin|].
    apply Hsuffix. apply lookup_lt_Some in Hp. lia.
  - intros i m m' Hm Hm'.
    rewrite <-(frames_before_S _ _ _ Hm), <-(frames_before_S _ _ _ Hm').
    apply Hsuffix. apply lookup_lt_Some in Hm. lia.
Qed.

Lemma enumerate_from_app (l1 l2 : list Page) n :
  enumerate_from n (l1 ++ l2) =
  enumerate_from n l1 ++ enumerate_from (n + length l1) l2.
Proof.
  revert n. induction l1 as [|x l1 IH]; intros n; simpl.
  - by rewrite Nat.add_0_r.
  - rewrite IH. by replace (S n + length l1) with (n + S (length l1)) by lia.
Qed.

Lemma take_enumerate_app (l1 l2 : list Page) :
  take (length l1) (enumerate (l1 ++ l2)) = enumerate l1.
Proof.
  unfold enumerate. rewrite enumerate_from_app.
  rewrite <-(length_enumerate_from 0 l1) at 1. apply take_app_length.
Qed.

(** X12: FIFO and LRU decide without looking ahead: with a capacity of at
    least 1, the snapshots of a trace are the first snapshots of any
    longer trace that starts with it, and the longer trace takes at least
    as many faults. *)
Theorem online_prefix algorithm clock pages more frames :
  algorithm = "FIFO" ∨ algorithm = "LRU" → (1 ≤ frames)%Z →
  ∃ faults mem movs t its faults' mem' movs' t' its',
    run_algorithm time_sub algorithm clock pages frames =
      Ok (faults, mem, movs, t, its) ∧
    run_algorithm time_sub algorithm clock (pages ++ more) frames =
      Ok (faults', mem', movs', t', its') ∧
    movs = take (length pages) movs' ∧
    faults ≤ faults'.
Proof.
  intros Halg Hf.
  assert (algorithm ∈ algorithms) as Hin
    by (destruct Halg as [-> | ->]; set_solver).
  destruct (run_algorithm_spec time_sub algorithm clock pages frames)
    as (st & Hrun & Hloc & Hinv); [done.. |].
  destruct (run_algorithm_spec time_sub algorithm clock (pages ++ more)
              frames) as (st' & Hrun' & Hloc' & Hinv'); [done.. |].
  destruct (run_inv_final _ _ _ _ Hinv) as (Hpf & Hlen & _).
  destruct (run_inv_final _ _ _ _ Hinv') as (Hpf' & _).
  assert (locals_after algorithm (pages ++ more) frames (length pages)
          = Ok st) as Hpre.
  { rewrite <-Hloc. unfold locals_after, fifo_locals_after,
      lru_locals_after.
    rewrite take_app_length, take_enumerate_app, take_length_enumerate,
      firstn_all.
    by destruct Halg as [-> | ->]. }
  pose proof (locals_after_movements _ _ _ _ _ _ Hpre Hloc' Hlen) as Hmovs.
  eexists _, _, _, _, _, _, _, _, _, _.
  split; [exact Hrun|]. split; [exact Hrun'|]. split; [done|].
  cbn [page_faults]. rewrite Hpf, Hpf', Hmovs.
  rewrite <-(take_app_length pages more) at 1.
  rewrite miss_flags_take by done. apply count_true_take_le.
Qed.
End capacity.

(** X13: FIFO does have the anomaly its description warns of: on the
    trace 1 2 3 4 1 2 5 1 2 3 4 5 it takes 9 faults with 3 frames and 10
    faults with 4, so that its fault count does not always go down, or
    stay, when a frame is added. *)
Theorem fifo_not_monotone_in_capacity :
  (∃ mem movs t its mem' movs' t' its',
     fifo_page_replacement Z.sub Z.of_nat
       ["1"; "2"; "3"; "4"; "1"; "2"; "5"; "1"; "2"; "3"; "4"; "5"] 3 =
       Ok (9, mem, movs, t, its) ∧
     fifo_page_replacement Z.sub Z.of_nat
       ["1"; "2"; "3"; "4"; "1"; "2"; "5"; "1"; "2"; "3"; "4"; "5"] 4 =
       Ok (10, mem', movs', t', its')) ∧
  ¬ ∀ (pages : list string) (frames : Z) r r',
      (1 ≤ frames)%Z →
      fifo_page_replacement Z.sub Z.of_nat pages frames = Ok r →
      fifo_page_replacement Z.sub Z.of_nat pages (frames + 1) = Ok r' →
      report_faults r' ≤ report_faults r.
Proof.
  split.
  - eexists _, _, _, _, _, _, _, _. split; vm_compute; reflexivity.
  - intros Hmono.
    pose (pages := ["1"; "2"; "3"; "4"; "1"; "2"; "5"; "1"; "2"; "3"; "4";
                    "5"]).
    destruct (fifo_page_replacement Z.sub Z.of_nat pages 3) as [r|] eqn:H3;
      [|by vm_compute in H3].
    destruct (fifo_page_replacement Z.sub Z.of_nat pages 4) as [r'|] eqn:H4;
      [|by vm_compute in H4].
    specialize (Hmono pages 3%Z r r' ltac:(lia) H3 H4).
    vm_compute in H3, H4. injection H3 as <-. injection H4 as <-.
    vm_compute in Hmono. lia.
Qed.

(** ** The form: validation and submission *)

Section form.
Context {Time : Type} (time_sub : Time → Time → Time).
Context (str_isdigit : string → bool) (py_int : string → result Z).
Context (py_strip : string → string) (py_split : string → list string).
Implicit Types (clock : nat → Time) (pages : list string).
Implicit Types (entry_pages entry_frames algorithm text : string).

Lemma validate_input_true pages text d :
  validate_input str_isdigit py_int pages text = Ok (d, true) →
  d = [] ∧ pages ≠ [] ∧ str_isdigit text = true ∧
  ∃ n, py_int text = Ok n ∧ (1 ≤ n)%Z.
Proof.
  unfold validate_input. case_decide; [done|].
  destruct (str_isdigit text); [|done]. simpl.
  destruct (py_int text) as [n|e]; [|done]. simpl.
  case_decide; [done|]. intros [= <-]. split_and!; [done..|].
  exists n. split; [done | lia].
Qed.

Lemma validate_input_raise pages text e :
  validate_input str_isdigit py_int pages text = Raise e ↔
  pages ≠ [] ∧ str_isdigit text = true ∧ py_int text = Raise e.
Proof.
  unfold validate_input. case_decide.
  { split; [done | by intros [? _]]. }
  destruct (str_isdigit text); simpl.
  - destruct (py_int text) as [n|e']; simpl.
    + case_decide; (split; [done | by intros (_ & _ & ?)]).
    + split; [by intros [= ->] | by intros (_ & _ & [= ->])].
  - split; [done | by intros (_ & ? & _)].
Qed.



(** X15: when the page entry gives at least one page and the stripped
    frames text is one on which [isdigit] holds and that [int] reads as a
    number [n] of at least 1, [on_submit] with an algorithm of the menu
    shows no dialog and runs the algorithm on the pages with capacity [n],
    without error: it gets one snapshot per page, so at least one (the
    [movements[-1]] read by [update_visuals] exists), and no snapshot holds
    a page twice or more than [n] pages. *)
Theorem on_submit_runs clock entry_pages entry_frames algorithm n :
  algorithm ∈ algorithms →
  py_split (py_strip entry_pages) ≠ [] →
  str_isdigit (py_strip entry_frames) = true →
  py_int (py_strip entry_frames) = Ok n → (1 ≤ n)%Z →
  ∃ faults mem movs t its,
    on_submit time_sub str_isdigit py_int py_strip py_split clock
      entry_pages entry_frames algorithm =
      Ok ([], Some (faults, mem, movs, t, its)) ∧
    run_algorithm time_sub algorithm clock
      (py_split (py_strip entry_pages)) n =
      Ok (faults, mem, movs, t, its) ∧
    length movs = length (py_split (py_strip entry_pages)) ∧
    is_Some (last movs) ∧
    ∀ m, m ∈ movs → NoDup m ∧ (Z.of_nat (length m) ≤ n)%Z.
Proof.
  intros Halg Hne Hdigit Hn Hle.
  set (pages := py_split (py_strip entry_pages)) in *.
  destruct (run_algorithm_spec time_sub algorithm clock pages n)
    as (st & Hrun & _ & Hinv); [done.. |].
  destruct (run_inv_final _ _ _ _ Hinv) as (_ & Hlen & _).
  eexists _, _, _, _, _. split_and!.
  - unfold on_submit, validate_input. fold pages.
    rewrite decide_False, Hdigit, Hn by done. simpl.
    rewrite decide_False by lia. simpl. by rewrite Hrun.
  - exact Hrun.
  - done.
  - rewrite last_lookup. apply lookup_lt_is_Some_2.
    cbn [movements]. destruct pages; [done | simpl in *; lia].
  - intros m (i & Hm)%list_elem_of_lookup.
    by apply (run_inv_snapshot_good _ _ _ _ _ _ _ Hinv Hm).
Qed.


(** X23: the only exception that escapes [on_submit], up to and including
    the run of an algorithm of the menu, is the one [int] raises: the call
    raises exactly when the page entry gives at least one page, [isdigit]
    holds of the stripped frames text and [int] raises on it, and it is
    that exception. The algorithms themselves never raise there. *)
Theorem on_submit_raises_only_from_int clock entry_pages entry_frames
    algorithm e :
  algorithm ∈ algorithms →
  on_submit time_sub str_isdigit py_int py_strip py_split clock
    entry_pages entry_frames algorithm = Raise e ↔
  py_split (py_strip entry_pages) ≠ [] ∧
  str_isdigit (py_strip entry_frames) = true ∧
  py_int (py_strip entry_frames) = Raise e.
Proof.
  intros Halg. rewrite <-validate_input_raise. unfold on_submit.
  destruct (validate_input str_isdigit py_int
              (py_split (py_strip entry_pages)) (py_strip entry_frames))
    as [[d valid]|e'] eqn:Hv; simpl; [|split; congruence].
  destruct valid; simpl; [|by split].
  apply validate_input_true in Hv as (_ & _ & _ & n & -> & Hle). simpl.
  destruct (run_algorithm_spec time_sub algorithm clock
              (py_split (py_strip entry_pages)) n)
    as (st & -> & _); [done.. |]. by split.
Qed.
End form.

(** ** The rows of the result box and the large random run *)

Section rows.
Context {Time : Type} (time_sub : Time → Time → Time).
Implicit Types (clock : nat → Time) (memory : list string).
Implicit Types (frames maxsize room : Z).

Lemma format_memory_state_ok maxsize room memory frames :
  (- maxsize - 1 ≤ frames - Z.of_nat (length memory) ≤ maxsize)%Z →
  (frames - Z.of_nat (length memory) ≤ room)%Z →
  format_memory_state maxsize room memory frames =
    Ok (String.concat " "
          (map (λ page, "[" +:+ page +:+ "]") memory ++
           replicate (Z.to_nat (frames - Z.of_nat (length memory))) "[]")).
Proof.
  intros Hfit Hroom. unfold format_memory_state, py_repeat.
  rewrite !decide_True by done. simpl. rewrite map_app. do 3 f_equal.
  induction (Z.to_nat (frames - Z.of_nat (length memory))) as [|k IH];
    simpl; [done | by f_equal].
Qed.

(** X20: when the number of free frames fits an index and there is memory
    for that many cells, [format_memory_state] returns the pages of the
    frame list, each between brackets, then one empty pair of brackets per
    free frame, joined by single spaces: as many cells as frames, or as
    pages when there are more pages than frames (no page is dropped). When
    the difference between [frames] and the number of pages does not fit
    an index it raises OverflowError. *)
Theorem format_memory_state_cells maxsize room memory frames :
  ((- maxsize - 1 ≤ frames - Z.of_nat (length memory) ≤ maxsize)%Z →
   (frames - Z.of_nat (length memory) ≤ room)%Z →
   ∃ cells,
     format_memory_state maxsize room memory frames =
       Ok (String.concat " " cells) ∧
     cells =
       map (λ page, "[" +:+ page +:+ "]") memory ++
       replicate (Z.to_nat (frames - Z.of_nat (length memory))) "[]" ∧
     length cells = Z.to_nat (Z.max (Z.of_nat (length memory)) frames)) ∧
  (¬ (- maxsize - 1 ≤ frames - Z.of_nat (length memory) ≤ maxsize)%Z →
   format_memory_state maxsize room memory frames = Raise OverflowError).
Proof.
  split.
  - intros Hfit Hroom. eexists. split; [by apply format_memory_state_ok|].
    split; [done|]. rewrite length_app, length_map, length_replicate. lia.
  - intros Hout. unfold format_memory_state, py_repeat.
    by rewrite decide_False by done.
Qed.

(** X21: after an algorithm of the menu ran on a capacity [frames] of at
    least 1 that fits an index, and for which there is memory for a row of
    [frames] cells, the rows written under "Memory Movements:" are built
    without error, one per snapshot and in their order, and every row has
    exactly [frames] cells: the pages of the snapshot between brackets,
    then empty brackets for the free frames. *)
Theorem rows_have_frames_cells maxsize room clock (pages : list string)
    (algorithm : string) frames faults mem movs t its :
  algorithm ∈ algorithms →
  (1 ≤ frames)%Z → (frames ≤ maxsize)%Z → (frames ≤ room)%Z →
  run_algorithm time_sub algorithm clock pages frames =
    Ok (faults, mem, movs, t, its) →
  ∃ rows,
    movement_rows maxsize room movs frames = Ok rows ∧
    length rows = length movs ∧
    ∀ i m, movs !! i = Some m →
      ∃ cells,
        rows !! i = Some (String.concat " " cells) ∧
        cells =
          map (λ page, "[" +:+ page +:+ "]") m ++
          replicate (Z.to_nat frames - length m) "[]" ∧
        length cells = Z.to_nat frames.
Proof.
  intros Halg Hf Hmax Hroom Hrun.
  destruct (run_algorithm_spec time_sub algorithm clock pages frames)
    as (st & Hst & _ & Hinv); [done.. |].
  rewrite Hst in Hrun. injection Hrun as _ _ <- _ _.
  unfold movement_rows.
  destruct (for_each_invariant
    (λ state rows,
       row ← format_memory_state maxsize room state frames;
       Ok (rows ++ [row]))
    (λ k rows,
       length rows = k ∧
       ∀ i m, i < k → movements st !! i = Some m →
         rows !! i =
           Some (String.concat " "
                   (map (λ page, "[" +:+ page +:+ "]") m ++
                    replicate (Z.to_nat frames - length m) "[]")))
    (movements st) []) as (rows & Hrows & Hlen & Hall).
  - split; [done | intros; lia].
  - intros k state rows Hstate [Hlen Hall].
    destruct (run_inv_snapshot_good _ _ _ _ _ _ _ Hinv Hstate) as [_ Hle].
    rewrite format_memory_state_ok by lia. simpl.
    eexists. split; [done|]. split; [rewrite length_app; simpl; lia|].
    intros i m Hi Hm. destruct (decide (i = k)) as [->|Hne].
    + rewrite <-Hlen, list_lookup_middle by done.
      assert (m = state) as -> by congruence.
      by replace (Z.to_nat (frames - Z.of_nat (length state)))
        with (Z.to_nat frames - length state) by lia.
    + rewrite lookup_app_l by lia. apply Hall; [lia | done].
  - exists rows. split_and!; [done.. |]. intros i m Hm.
    eexists. split; [|split; [done|]].
    + apply Hall; [by apply lookup_lt_Some in Hm | done].
    + rewrite length_app, length_map, length_replicate.
      destruct (run_inv_snapshot_good _ _ _ _ _ _ _ Hinv Hm) as [_ Hle].
      lia.
Qed.

Lemma size_bounded_values (l : list Z) :
  Forall (λ x, 0 ≤ x ≤ 100)%Z l → size (list_to_set l : gset Z) ≤ 101.
Proof.
  intros Hl.
  assert (size (list_to_set (seqZ 0 101) : gset Z) = 101) as <-.
  { rewrite size_list_to_set by apply NoDup_seqZ. by rewrite length_seqZ. }
  apply subseteq_size. intros x Hx%elem_of_list_to_set.
  rewrite Forall_forall in Hl. apply elem_of_list_to_set, elem_of_seqZ.
  specialize (Hl x Hx). lia.
Qed.

(** X22: in the large random run the pages are numbers from 0 to 100, so
    with 101 frames or more nothing is ever evicted and
    [show_large_input_results] prints the same fault count for FIFO, LRU
    and Optimal: the number of distinct values drawn, at most 101. *)
Theorem large_run_same_faults clock (large_pages : list Z) frames :
  Forall (λ x, 0 ≤ x ≤ 100)%Z large_pages → (101 ≤ frames)%Z →
  ∃ n,
    show_large_input_results time_sub clock large_pages frames =
      Ok (n, n, n) ∧
    n = size (list_to_set large_pages : gset Z) ∧ n ≤ 101.
Proof.
  intros Hvalues Hf. pose proof (size_bounded_values _ Hvalues) as Hsize.
  exists (size (list_to_set large_pages : gset Z)).
  split; [|done]. unfold show_large_input_results.
  destruct (run_algorithm_enough_frames time_sub "FIFO" clock large_pages
              frames) as (s1 & H1 & Hp1 & _); [set_solver | lia | lia |].
  destruct (run_algorithm_enough_frames time_sub "LRU" clock large_pages
              frames) as (s2 & H2 & Hp2 & _); [set_solver | lia | lia |].
  destruct (run_algorithm_enough_frames time_sub "Optimal" clock large_pages
              frames) as (s3 & H3 & Hp3 & _); [set_solver | lia | lia |].
  change (fifo_page_replacement time_sub clock large_pages frames
          = Ok (make_report time_sub (clock 0) (clock 1) s1)) in H1.
  change (lru_page_replacement time_sub clock large_pages frames
          = Ok (make_report time_sub (clock 0) (clock 1) s2)) in H2.
  change (optimal_page_replacement time_sub clock large_pages frames
          = Ok (make_report time_sub (clock 0) (clock 1) s3)) in H3.
  rewrite H1, H2, H3. simpl. unfold report_faults. simpl.
  by rewrite Hp1, Hp2, Hp3.
Qed.
End rows.

(** ** The further properties on concrete runs *)

Lemma empty_trace_returns_witness :
  "Optimal" ∈ algorithms ∧
  run_algorithm Z.sub "Optimal" Z.of_nat (@nil string) (-2) =
    Ok (0, [], [], 1%Z, 0).
Proof.
  split; [repeat constructor|].
  apply (empty_trace_returns Z.sub "Optimal" Z.of_nat (-2)).
  repeat constructor.
Defined.

Lemma report_shape_witness :
  "LRU" ∈ algorithms ∧ (1 ≤ 2)%Z ∧
  ∃ faults mem movs its,
    run_algorithm Z.sub "LRU" Z.of_nat ["A"; "B"; "A"; "C"] 2 =
      Ok (faults, mem, movs, 1%Z, its) ∧
    its = 4 ∧ mem = default [] (last movs).
Proof.
  split; [repeat constructor|]. split; [lia|].
  apply (report_shape Z.sub "LRU" Z.of_nat ["A"; "B"; "A"; "C"] 2);
    [repeat constructor | lia].
Defined.

Lemma referenced_page_resident_witness :
  "FIFO" ∈ algorithms ∧ (1 ≤ 2)%Z ∧
  ∃ faults mem movs t its,
    run_algorithm Z.sub "FIFO" Z.of_nat ["A"; "B"; "A"; "C"] 2 =
      Ok (faults, mem, movs, t, its) ∧
    ∃ m, movs !! 3 = Some m ∧ "C" ∈ m.
Proof.
  split; [repeat constructor|]. split; [lia|].
  destruct (referenced_page_resident Z.sub "FIFO" Z.of_nat
              ["A"; "B"; "A"; "C"] 2)
    as (faults & mem & movs & t & its & Hrun & Hsteps);
    [repeat constructor | lia |].
  destruct (Hsteps 3 "C" eq_refl) as (m & Hm & Hin & _).
  exists faults, mem, movs, t, its. split; [exact Hrun|].
  exists m. by split.
Defined.

Lemma steps_are_demand_paging_witness :
  "Optimal" ∈ algorithms ∧ (1 ≤ 2)%Z ∧
  ∃ r, run_algorithm Z.sub "Optimal" Z.of_nat ["A"; "B"; "A"; "C"] 2 = Ok r.
Proof.
  split; [repeat constructor|]. split; [lia|].
  destruct (steps_are_demand_paging Z.sub "Optimal" Z.of_nat
              ["A"; "B"; "A"; "C"] 2)
    as (faults & mem & movs & t & its & Hrun & _);
    [repeat constructor | lia |].
  by eexists.
Defined.

Lemma hit_leaves_frames_unchanged_witness :
  ("FIFO" = "FIFO" ∨ "FIFO" = "Optimal") ∧ (1 ≤ 2)%Z ∧
  ∃ faults mem movs t its,
    run_algorithm Z.sub "FIFO" Z.of_nat ["A"; "B"; "A"; "C"] 2 =
      Ok (faults, mem, movs, t, its) ∧
    movs !! 2 = Some (frames_before movs 2).
Proof.
  split; [by left|]. split; [lia|].
  destruct (hit_leaves_frames_unchanged Z.sub "FIFO" Z.of_nat
              ["A"; "B"; "A"; "C"] 2)
    as (faults & mem & movs & t & its & Hrun & Hhit); [by left | lia |].
  exists faults, mem, movs, t, its. split; [exact Hrun|].
  apply (Hhit 2 "A" eq_refl).
  vm_compute in Hrun. injection Hrun as _ _ <- _ _.
  vm_compute. repeat constructor.
Defined.

Lemma fifo_evicts_oldest_witness :
  (1 ≤ 2)%Z ∧
  ∃ faults mem movs t its rest jq,
    fifo_page_replacement Z.sub Z.of_nat ["A"; "B"; "A"; "C"] 2 =
      Ok (faults, mem, movs, t, its) ∧
    frames_before movs 3 = "A" :: rest ∧
    movs !! 3 = Some (rest ++ ["C"]) ∧
    loaded_at ["A"; "B"; "A"; "C"] movs 3 "A" jq ∧
    ∀ r, r ∈ rest →
      ∃ jr, loaded_at ["A"; "B"; "A"; "C"] movs 3 r jr ∧ jq < jr.
Proof.
  split; [lia|].
  destruct (fifo_evicts_oldest Z.sub Z.of_nat ["A"; "B"; "A"; "C"] 2)
    as [(faults & mem & movs & t & its & Hrun & Hsteps) _]; [lia|].
  assert (movs = [["A"]; ["A"; "B"]; ["A"; "B"]; ["B"; "C"]]) as Hmovs
    by (vm_compute in Hrun; congruence).
  destruct (Hsteps 3 "C" eq_refl) as (m & Hm & _ & Hevict).
  destruct Hevict as (q & rest & jq & Hprev & -> & Hq & Hrest).
  { rewrite Hmovs. simpl. set_solver. }
  { rewrite Hmovs. simpl. lia. }
  assert (q = "A") as -> by (rewrite Hmovs in Hprev; simpl in Hprev;
                             congruence).
  exists faults, mem, movs, t, its, rest, jq.
  split_and!; [exact Hrun | exact Hprev | exact Hm | exact Hq | exact Hrest].
Defined.

Lemma fault_count_bounds_witness :
  "LRU" ∈ algorithms ∧ (1 ≤ 2)%Z ∧
  ∃ faults mem movs t its,
    run_algorithm Z.sub "LRU" Z.of_nat ["A"; "B"; "A"; "C"] 2 =
      Ok (faults, mem, movs, t, its) ∧
    size (list_to_set ["A"; "B"; "A"; "C"] : gset string) ≤ faults ∧
    faults ≤ 4.
Proof.
  split; [repeat constructor|]. split; [lia|].
  apply (fault_count_bounds Z.sub "LRU" Z.of_nat ["A"; "B"; "A"; "C"] 2);
    [repeat constructor | lia].
Defined.

Lemma enough_frames_one_fault_per_page_witness :
  "FIFO" ∈ algorithms ∧ (1 ≤ 3)%Z ∧
  (Z.of_nat (size (list_to_set ["A"; "B"; "A"; "C"] : gset string)) ≤ 3)%Z ∧
  ∃ faults mem movs t its,
    run_algorithm Z.sub "FIFO" Z.of_nat ["A"; "B"; "A"; "C"] 3 =
      Ok (faults, mem, movs, t, its) ∧
    faults = size (list_to_set ["A"; "B"; "A"; "C"] : gset string).
Proof.
  split; [repeat constructor|]. split; [lia|].
  assert (Z.of_nat (size (list_to_set ["A"; "B"; "A"; "C"] : gset string))
          ≤ 3)%Z as Hfit by (vm_compute; discriminate).
  split; [exact Hfit|].
  destruct (enough_frames_one_fault_per_page Z.sub "FIFO" Z.of_nat
              ["A"; "B"; "A"; "C"] 3)
    as (faults & mem & movs & t & its & Hrun & Hfaults & _);
    [repeat constructor | lia | exact Hfit |].
  exists faults, mem, movs, t, its. by split.
Defined.

Lemma optimal_beats_every_schedule_witness :
  (1 ≤ 1)%Z ∧ sched 1 (∅ : gset string) ["A"; "A"] 1 ∧
  ∃ faults mem movs t its,
    optimal_page_replacement Z.sub Z.of_nat ["A"; "A"] 1 =
      Ok (faults, mem, movs, t, its) ∧
    faults ≤ 1.
Proof.
  assert (sched 1 (∅ : gset string) ["A"; "A"] 1) as Hs.
  { apply (sched_miss 1 ∅ {["A"]}).
    - apply not_elem_of_empty.
    - apply union_subseteq_r.
    - by apply elem_of_singleton.
    - rewrite size_singleton. lia.
    - apply sched_hit; [by apply elem_of_singleton | apply sched_nil]. }
  split; [lia|]. split; [exact Hs|].
  apply (optimal_beats_every_schedule Z.sub Z.of_nat ["A"; "A"] 1 1);
    [lia | exact Hs].
Defined.

Lemma optimal_monotone_in_capacity_witness :
  (1 ≤ 2)%Z ∧ (2 ≤ 3)%Z ∧
  ∃ ro ro' : report string Z,
    optimal_page_replacement Z.sub Z.of_nat ["A"; "B"; "C"; "A"] 2 = Ok ro ∧
    optimal_page_replacement Z.sub Z.of_nat ["A"; "B"; "C"; "A"] 3
      = Ok ro' ∧
    report_faults ro' ≤ report_faults ro.
Proof.
  split; [lia|]. split; [lia|].
  apply (optimal_monotone_in_capacity Z.sub Z.of_nat
           ["A"; "B"; "C"; "A"] 2 3); lia.
Defined.

Lemma lru_monotone_in_capacity_witness :
  (1 ≤ 2)%Z ∧ (2 ≤ 3)%Z ∧
  ∃ faults mem movs t its faults' mem' movs' t' its',
    lru_page_replacement Z.sub Z.of_nat ["A"; "B"; "C"; "A"] 2 =
      Ok (faults, mem, movs, t, its) ∧
    lru_page_replacement Z.sub Z.of_nat ["A"; "B"; "C"; "A"] 3 =
      Ok (faults', mem', movs', t', its') ∧
    faults' ≤ faults.
Proof.
  split; [lia|]. split; [lia|].
  destruct (lru_monotone_in_capacity Z.sub Z.of_nat
              ["A"; "B"; "C"; "A"] 2 3)
    as (f & m & mv & t & i & f' & m' & mv' & t' & i' & H1 & H2 & Hle & _);
    [lia | lia |].
  exists f, m, mv, t, i, f', m', mv', t', i'. by split_and!.
Defined.

Lemma online_prefix_witness :
  ("LRU" = "FIFO" ∨ "LRU" = "LRU") ∧ (1 ≤ 2)%Z ∧
  ∃ faults mem movs t its faults' mem' movs' t' its',
    run_algorithm Z.sub "LRU" Z.of_nat ["A"; "B"] 2 =
      Ok (faults, mem, movs, t, its) ∧
    run_algorithm Z.sub "LRU" Z.of_nat (["A"; "B"] ++ ["C"; "A"]) 2 =
      Ok (faults', mem', movs', t', its') ∧
    movs = take 2 movs' ∧ faults ≤ faults'.
Proof.
  split; [by right|]. split; [lia|].
  apply (online_prefix Z.sub "LRU" Z.of_nat ["A"; "B"] ["C"; "A"] 2);
    [by right | lia].
Defined.

Lemma on_submit_raises_only_from_int_witness :
  "FIFO" ∈ algorithms ∧
  on_submit Z.sub ascii_isdigit ascii_int ascii_strip ascii_split Z.of_nat
    " A B "
    (String.string_of_list_ascii (replicate 4301 (Ascii.ascii_of_nat 48)))
    "FIFO" = Raise ValueError.
Proof.
  split; [repeat constructor|].
  apply (on_submit_raises_only_from_int Z.sub ascii_isdigit ascii_int
           ascii_strip ascii_split Z.of_nat " A B "
           (String.string_of_list_ascii
              (replicate 4301 (Ascii.ascii_of_nat 48)))
           "FIFO" ValueError);
    [repeat constructor|].
  split; [by vm_compute|]. split; vm_compute; reflexivity.
Defined.

Lemma on_submit_runs_witness :
  "LRU" ∈ algorithms ∧ ascii_split (ascii_strip " A B  A ") ≠ [] ∧
  ascii_isdigit (ascii_strip " 2 ") = true ∧
  ascii_int (ascii_strip " 2 ") = Ok 2%Z ∧ (1 ≤ 2)%Z ∧
  ∃ faults mem movs t its,
    on_submit Z.sub ascii_isdigit ascii_int ascii_strip ascii_split Z.of_nat
      " A B  A " " 2 " "LRU" = Ok ([], Some (faults, mem, movs, t, its)) ∧
    length movs = 3.
Proof.
  split; [repeat constructor|]. split; [by vm_compute|].
  split; [reflexivity|]. split; [reflexivity|]. split; [lia|].
  destruct (on_submit_runs Z.sub ascii_isdigit ascii_int ascii_strip
              ascii_split Z.of_nat " A B  A " " 2 " "LRU" 2)
    as (faults & mem & movs & t & its & Hrun & _ & Hlen & _);
    [repeat constructor | by vm_compute | reflexivity | reflexivity | lia |].
  exists faults, mem, movs, t, its. by split.
Defined.


Lemma format_memory_state_cells_witness :
  (- 9223372036854775807 - 1 ≤ 4 - Z.of_nat (length ["A"; "B"])
   ≤ 9223372036854775807)%Z ∧
  (4 - Z.of_nat (length ["A"; "B"]) ≤ 1000)%Z ∧
  format_memory_state 9223372036854775807 1000 ["A"; "B"] 4 =
    Ok "[A] [B] [] []".
Proof.
  assert (- 9223372036854775807 - 1 ≤ 4 - Z.of_nat (length ["A"; "B"])
          ≤ 9223372036854775807)%Z as Hfit by (simpl; lia).
  assert (4 - Z.of_nat (length ["A"; "B"]) ≤ 1000)%Z as Hroom
    by (simpl; lia).
  split; [exact Hfit|]. split; [exact Hroom|].
  destruct (format_memory_state_cells 9223372036854775807 1000
              ["A"; "B"] 4) as [Hcells _].
  destruct (Hcells Hfit Hroom) as (cells & -> & -> & _). reflexivity.
Defined.

Lemma rows_have_frames_cells_witness :
  "LRU" ∈ algorithms ∧ (1 ≤ 2)%Z ∧ (2 ≤ 9223372036854775807)%Z ∧
  (2 ≤ 1000)%Z ∧
  run_algorithm Z.sub "LRU" Z.of_nat ["A"; "B"; "C"] 2 =
    Ok (3, ["B"; "C"], [["A"]; ["A"; "B"]; ["B"; "C"]], 1%Z, 3) ∧
  ∃ rows,
    movement_rows 9223372036854775807 1000
      [["A"]; ["A"; "B"]; ["B"; "C"]] 2 = Ok rows ∧
    length rows = 3 ∧ rows !! 0 = Some "[A] []".
Proof.
  split; [repeat constructor|]. split; [lia|]. split; [lia|].
  split; [lia|]. split; [reflexivity|].
  destruct (rows_have_frames_cells Z.sub 9223372036854775807 1000 Z.of_nat
              ["A"; "B"; "C"] "LRU" 2 3 ["B"; "C"]
              [["A"]; ["A"; "B"]; ["B"; "C"]] 1%Z 3)
    as (rows & Hrows & Hlen & Hcells);
    [repeat constructor | lia | lia | lia | reflexivity |].
  exists rows. split; [exact Hrows|]. split; [exact Hlen|].
  destruct (Hcells 0 ["A"] eq_refl) as (cells & -> & -> & _). reflexivity.
Defined.

Lemma large_run_same_faults_witness :
  Forall (λ x, 0 ≤ x ≤ 100)%Z [3; 100; 3; 0]%Z ∧ (101 ≤ 101)%Z ∧
  ∃ n, show_large_input_results Z.sub Z.of_nat [3; 100; 3; 0]%Z 101 =
         Ok (n, n, n) ∧ n ≤ 101.
Proof.
  assert (Forall (λ x, 0 ≤ x ≤ 100)%Z [3; 100; 3; 0]%Z) as Hv.
  { repeat constructor; lia. }
  split; [exact Hv|]. split; [lia|].
  destruct (large_run_same_faults Z.sub Z.of_nat [3; 100; 3; 0]%Z 101 Hv)
    as (n & Hrun & _ & Hle); [lia|].
  exists n. by split.
Defined.
